(** * QGVLayerTilesOnline: the online tile layer of QGeoView

    A shallow embedding of [QGVLayerTilesOnline.cpp]: the persistent tile
    cache (one SQLite table), the table of in-flight network replies
    ([mRequest]) and the coordinator built from [request], [cancel],
    [onReplyFinished], [removeReply], [findCachedTile] and [cacheTile].

    The class mutates its members, talks to Qt objects and calls back into
    its base class, so every method is a computation in a small
    state-and-failure monad over [State].  [State] also carries a [trace]:
    the calls made on the collaborators and the updates of [mRequest], in
    program order, which is what statements about "before" and "after"
    are read from.

    What is taken from Qt rather than from this file:
    - a [QByteArray] is its bytes; the array without bytes is the null
      array, which is what [readAll] returns when it has read nothing and
      what the SQLite driver binds as NULL;
    - a rowid is a signed 64-bit integer, and [AUTOINCREMENT] refuses to
      hand out a rowid once the largest one has been used;
    - a statement run on the table fails for one of three reasons: the
      connection is closed or the table is missing, a NULL meets
      [NOT NULL], or the rowids are used up; the disk and the file locks
      are taken to work;
    - [Q_ASSERT] is compiled out under [QT_NO_DEBUG], and a call through
      a null network manager is a fault;
    - [QNetworkReply::abort] does nothing to a reply that has finished and
      otherwise emits [finished] from inside the call, with
      [OperationCanceledError];
    - a reply keeps the URL it was requested with, and reply pointers are
      not reused;
    - the layer is the only writer of its table.
    The headers and the SSL configuration [request] sets on the
    [QNetworkRequest] play no part below. *)

From Stdlib Require Import ZArith String Ascii List Lia.
From stdpp Require Import base numbers list strings countable gmap fin_maps.

Local Open Scope Z_scope.

(** ** Values *)

(** [QGV::GeoTilePos]: a zoom level and a [QPoint]. *)
Record GeoTilePos := mkGeoTilePos { zoom : Z; pos_x : Z; pos_y : Z }.

#[global] Instance GeoTilePos_eq_dec : EqDecision GeoTilePos.
Proof. solve_decision. Defined.

#[global] Instance GeoTilePos_countable : Countable GeoTilePos.
Proof.
  refine (inj_countable' (λ t, (zoom t, pos_x t, pos_y t))
                         (λ p, mkGeoTilePos p.1.1 p.1.2 p.2) _).
  by intros [].
Defined.

(** [QByteArray]. *)
Abbreviation QByteArray := (list Byte.byte).

Definition isEmpty (b : QByteArray) : bool :=
  match b with [] => true | _ => false end.

(** A [QNetworkReply*]: the index of the reply object in [replies]. *)
Abbreviation handle := nat (only parsing).

(** Why a statement fails: the connection is closed or the table is not
    there (for the reason given), a NULL meets [NOT NULL], or the rowids
    are used up. *)
Inductive QueryFailure :=
| Unusable (why : string)
| NotNull
| Full.

(** What the class gets from outside: the subclass's URL scheme and the
    library functions whose results it only passes on. *)
Class Collaborators := {
  (** [QGV::GeoRect], and [GeoTilePos::toGeoRect]. *)
  GeoRect : Type;
  toGeoRect : GeoTilePos → GeoRect;
  (** The pure virtual [tilePosToUrl] of the subclass. *)
  tilePosToUrl : GeoTilePos → string;
  (** [QUrl(s).toString()]. *)
  QUrl_toString : string → string;
  (** Whether [QGV::getNetworkManager()] is non-null. *)
  getNetworkManager : bool;
  (** Whether the build defines [QT_NO_DEBUG], which turns [Q_ASSERT]
      into nothing. *)
  QT_NO_DEBUG : bool;
  (** [query.lastError().text()] after a statement has failed. *)
  lastErrorText : QueryFailure → string;
}.

(** ** [QString::split] on one character, empty parts kept *)

Fixpoint split (sep : ascii) (s : string) : list string :=
  match s with
  | EmptyString => [EmptyString]
  | String c s' =>
      if Ascii.eqb c sep then EmptyString :: split sep s'
      else match split sep s' with
           | [] => [String c EmptyString]
           | tok :: toks => String c tok :: toks
           end
  end.

(** [url.split('/')[2]]; indexing past the end of the list is an error
    ([None]). *)
Definition provider_of (url : string) : option string :=
  nth_error (split "/"%char url) 2.

(** No character of [s] is [sep]. *)
Fixpoint free_of (sep : ascii) (s : string) : bool :=
  match s with
  | EmptyString => true
  | String c s' => negb (Ascii.eqb c sep) && free_of sep s'
  end.

(** [QStringList::join]. *)
Fixpoint join (sep : ascii) (l : list string) : string :=
  match l with
  | [] => EmptyString
  | [tok] => tok
  | tok :: toks => tok +:+ String sep (join sep toks)
  end.

(** ** The table [Tiles] *)

Record Row := mkRow {
  rowid : Z;
  zoom_level : Z;
  tile_x : Z;
  tile_y : Z;
  tile_provider : string;
  tile_data : QByteArray;
}.

(** The columns of [UNIQUE(zoom_level, tile_x, tile_y, tile_provider)]. *)
Record CacheKey := mkKey {
  k_zoom : Z; k_x : Z; k_y : Z; k_provider : string
}.

#[global] Instance CacheKey_eq_dec : EqDecision CacheKey.
Proof. solve_decision. Defined.

Definition key_of_row (r : Row) : CacheKey :=
  mkKey (zoom_level r) (tile_x r) (tile_y r) (tile_provider r).

Definition has_key (k : CacheKey) (r : Row) : bool :=
  bool_decide (key_of_row r = k).

(** The rows in rowid order, and the largest rowid handed out so far
    ([AUTOINCREMENT]). *)
Record Tiles := mkTiles { rows : list Row; sequence : Z }.

Definition max_id (l : list Row) : Z :=
  fold_right (λ r m, Z.max (rowid r) m) 0 l.

(** [SELECT tile_data FROM Tiles WHERE ...] followed by [query.next()]:
    the first matching row, if any. *)
Definition select_tile_data (k : CacheKey) (t : Tiles) : option QByteArray :=
  tile_data <$> List.find (has_key k) (rows t).

(** The largest rowid, 2^63 - 1. *)
Definition max_rowid : Z := 9223372036854775807.

(** The largest rowid the table has handed out. *)
Definition last_rowid (t : Tiles) : Z := Z.max (sequence t) (max_id (rows t)).

(** The table after a successful [INSERT OR REPLACE]: the rows that clash
    with the new one on the unique columns are deleted, and the new row
    gets the next rowid. *)
Definition inserted (k : CacheKey) (data : QByteArray) (t : Tiles) : Tiles :=
  let i := last_rowid t + 1 in
  {| rows := List.filter (λ r, negb (has_key k r)) (rows t)
             ++ [mkRow i (k_zoom k) (k_x k) (k_y k) (k_provider k) data];
     sequence := i |}.

(** [INSERT OR REPLACE INTO Tiles (...) VALUES (...)] on a table that is
    there.  The rowid is taken first, and there is none left after
    [max_rowid]; then the constraints are checked, and [tile_data] is
    [NOT NULL] without a default.  A statement that fails leaves the
    table as it was. *)
Definition insert_or_replace (k : CacheKey) (data : QByteArray) (t : Tiles)
    : QueryFailure + Tiles :=
  if negb (last_rowid t <? max_rowid) then inl Full
  else if isEmpty data then inl NotNull
  else inr (inserted k data t).

(** [mSqlDatabase]: either the table [Tiles] is there to be queried, or
    the connection is closed or has no such table, for the reason given,
    and every statement run on it fails.  The class opens the connection
    and creates the table in its constructor only. *)
Inductive SqlDatabase :=
| NoTiles (lastError : string)
| HasTiles (t : Tiles).

(** ** Network replies *)

Inductive NetworkError :=
| NoError
| OperationCanceledError
| OtherError (code : nat).

#[global] Instance NetworkError_eq_dec : EqDecision NetworkError.
Proof. solve_decision. Defined.

Inductive ReplyState := Running | Finished | Aborted.

#[global] Instance ReplyState_eq_dec : EqDecision ReplyState.
Proof. solve_decision. Defined.

(** A [QNetworkReply] object.  [r_slot] is the tile position captured by
    the lambda that [request] connects to the reply's [finished] signal. *)
Record Reply := mkReply {
  r_url : string;
  r_slot : option GeoTilePos;
  r_state : ReplyState;
  r_error : NetworkError;
  r_errorString : string;
  r_data : QByteArray;
  r_closed : bool;
  r_deleteLater : bool;
}.

Definition set_slot (t : GeoTilePos) (r : Reply) : Reply :=
  mkReply (r_url r) (Some t) (r_state r) (r_error r) (r_errorString r)
          (r_data r) (r_closed r) (r_deleteLater r).

Definition set_state (st : ReplyState) (r : Reply) : Reply :=
  mkReply (r_url r) (r_slot r) st (r_error r) (r_errorString r)
          (r_data r) (r_closed r) (r_deleteLater r).

Definition set_error (e : NetworkError) (msg : string) (r : Reply) : Reply :=
  mkReply (r_url r) (r_slot r) (r_state r) e msg
          (r_data r) (r_closed r) (r_deleteLater r).

Definition set_data (d : QByteArray) (r : Reply) : Reply :=
  mkReply (r_url r) (r_slot r) (r_state r) (r_error r) (r_errorString r)
          d (r_closed r) (r_deleteLater r).

Definition set_closed (r : Reply) : Reply :=
  mkReply (r_url r) (r_slot r) (r_state r) (r_error r) (r_errorString r)
          (r_data r) true (r_deleteLater r).

Definition set_deleteLater (r : Reply) : Reply :=
  mkReply (r_url r) (r_slot r) (r_state r) (r_error r) (r_errorString r)
          (r_data r) (r_closed r) true.

(** The reply [QNetworkAccessManager::get] returns. *)
Definition new_reply (url : string) : Reply :=
  mkReply url None Running NoError EmptyString [] false false.

(** ** Tiles handed to the consumer *)

(** The arguments of the [drawDebug] format string. *)
Record DebugText := mkDebugText {
  dbg_source : string; dbg_zoom : Z; dbg_x : Z; dbg_y : Z
}.

(** A [QGVImage] as the class sets it up: [setGeometry], [loadImage],
    [setProperty("drawDebug", ...)]. *)
Record QGVImage `{Collaborators} := mkImage {
  geometry : GeoRect;
  image : QByteArray;
  drawDebug : DebugText;
}.

(** ** Effects *)

Inductive Query :=
| CreateTiles
| SelectTileData (k : CacheKey)
| InsertOrReplace (k : CacheKey) (data : QByteArray).

Inductive Event `{Collaborators} :=
| NetGet (url : string) (reply : handle)
| ReplyAbort (reply : handle)
| ReplyClose (reply : handle)
| ReplyDeleteLater (reply : handle)
| TableInsert (tilePos : GeoTilePos) (reply : handle)
| TableRemove (tilePos : GeoTilePos)
| OnTile (tilePos : GeoTilePos) (tile : QGVImage)
| SqlExec (q : Query) (ok : bool)
| LogCritical (text : string)
| LogDebug (tag text : string).

Record State `{Collaborators} := mkState {
  mRequest : gmap GeoTilePos handle;
  mSqlDatabase : SqlDatabase;
  replies : list Reply;
  trace : list Event;
}.

Arguments mkImage {_} geometry image drawDebug.
Arguments mkState {_} mRequest mSqlDatabase replies trace.

Inductive result (A : Type) :=
| Ok (a : A)
| Crash
| OutOfFuel.
Arguments Ok {A} a.
Arguments Crash {A}.
Arguments OutOfFuel {A}.

Definition M `{Collaborators} (A : Type) : Type := State → result (A * State).

Definition ret `{Collaborators} {A} (a : A) : M A := λ s, Ok (a, s).

Definition bind `{Collaborators} {A B} (m : M A) (k : A → M B) : M B :=
  λ s, match m s with
       | Ok (a, s') => k a s'
       | Crash => Crash
       | OutOfFuel => OutOfFuel
       end.

Notation "'let*' x ':=' m 'in' k" := (bind m (λ x, k))
  (at level 10, x name, m at level 100, k at level 200, only parsing).
Notation "m '>>' k" := (bind m (λ _, k))
  (at level 90, right associativity, only parsing).

(** ** Primitive computations *)

Section Coordinator.
Context `{Collaborators}.

Definition crash {A} : M A := λ _, Crash.

Definition read : M State := λ s, Ok (s, s).

Definition emit (e : Event) : M unit :=
  λ s, Ok (tt, mkState (mRequest s) (mSqlDatabase s) (replies s) (trace s ++ [e])).

Definition set_mRequest (m : gmap GeoTilePos handle) : M unit :=
  λ s, Ok (tt, mkState m (mSqlDatabase s) (replies s) (trace s)).

Definition set_mSqlDatabase (d : SqlDatabase) : M unit :=
  λ s, Ok (tt, mkState (mRequest s) d (replies s) (trace s)).

Definition set_replies (l : list Reply) : M unit :=
  λ s, Ok (tt, mkState (mRequest s) (mSqlDatabase s) l (trace s)).

(** [Q_ASSERT]: nothing under [QT_NO_DEBUG], a fault on a false
    condition otherwise. *)
Definition Q_ASSERT (b : bool) : M unit :=
  if QT_NO_DEBUG then ret tt else if b then ret tt else crash.

(** [qgvCritical() << "ERROR" << text] and [qgvDebug() << tag << text]. *)
Definition qgvCritical (text : string) : M unit := emit (LogCritical text).
Definition qgvDebug (tag text : string) : M unit := emit (LogDebug tag text).

(** The callback of the base class [QGVLayerTiles]. *)
Definition onTile (tilePos : GeoTilePos) (tile : QGVImage) : M unit :=
  emit (OnTile tilePos tile).

(** *** [QNetworkReply] and [QNetworkAccessManager] *)

(** Following a reply pointer; a pointer to no object is an error. *)
Definition deref (reply : handle) : M Reply :=
  λ s, match replies s !! reply with
       | Some r => Ok (r, s)
       | None => Crash
       end.

Definition update (reply : handle) (f : Reply → Reply) : M unit :=
  let* r := deref reply in
  let* s := read in
  set_replies (<[reply := f r]> (replies s)).

(** [getNetworkManager()->get(request)]: a new running reply; calling
    through a null manager is a fault. *)
Definition get (url : string) : M handle :=
  if getNetworkManager then
    let* s := read in
    let reply := length (replies s) in
    set_replies (replies s ++ [new_reply url]) >>
    emit (NetGet url reply) >>
    ret reply
  else crash.

(** [connect(reply, &QNetworkReply::finished, reply, [...tilePos]...)]. *)
Definition connect (reply : handle) (tilePos : GeoTilePos) : M unit :=
  update reply (set_slot tilePos).

(** Emitting [finished]: the connected lambda runs at once; [slot] is what
    it calls. *)
Definition emit_finished (slot : handle → GeoTilePos → M unit)
    (reply : handle) : M unit :=
  let* r := deref reply in
  match r_slot r with
  | Some tilePos => slot reply tilePos
  | None => ret tt
  end.

(** [reply->abort()]: nothing on a reply that has finished or was aborted;
    a running reply is closed, gets [OperationCanceledError], emits
    [finished] from inside the call, and ends up aborted. *)
Definition abort (slot : handle → GeoTilePos → M unit) (reply : handle) : M unit :=
  emit (ReplyAbort reply) >>
  let* r := deref reply in
  match r_state r with
  | Running =>
      update reply (λ r, set_state Finished
                           (set_error OperationCanceledError "Operation canceled"
                              (set_closed r))) >>
      emit_finished slot reply >>
      update reply (set_state Aborted)
  | Finished | Aborted => ret tt
  end.

(** [reply->close()] and [reply->deleteLater()]. *)
Definition close (reply : handle) : M unit :=
  emit (ReplyClose reply) >> update reply set_closed.

Definition deleteLater (reply : handle) : M unit :=
  emit (ReplyDeleteLater reply) >> update reply set_deleteLater.

(** [reply->readAll()] hands over the buffered bytes. *)
Definition readAll (reply : handle) : M QByteArray :=
  let* r := deref reply in
  update reply (set_data []) >>
  ret (r_data r).

(** ** The methods of [QGVLayerTilesOnline] *)

Definition selectSql : string :=
  "SELECT tile_data FROM Tiles WHERE zoom_level = :zoom AND tile_x = :x AND tile_y = :y AND tile_provider = :provider;".

Definition insertSql : string :=
  "INSERT OR REPLACE INTO Tiles (zoom_level, tile_x, tile_y, tile_provider, tile_data) VALUES (:zoom, :x, :y, :provider, :data);".

(** The values bound to [:zoom], [:x], [:y] and [:provider]. *)
Definition bindValues (tilePos : GeoTilePos) (url : string) : M CacheKey :=
  match provider_of url with
  | Some provider =>
      ret (mkKey (zoom tilePos) (pos_x tilePos) (pos_y tilePos) provider)
  | None => crash
  end.

Definition findCachedTile (tilePos : GeoTilePos) (url : string) : M QByteArray :=
  let* k := bindValues tilePos url in
  let* s := read in
  match mSqlDatabase s with
  | HasTiles t =>
      emit (SqlExec (SelectTileData k) true) >>
      match select_tile_data k t with
      | Some data => qgvDebug "sql query" selectSql >> ret data
      | None => ret []
      end
  | NoTiles _ =>
      emit (SqlExec (SelectTileData k) false) >> ret []
  end.

Definition cacheTile (image : QByteArray) (tilePos : GeoTilePos) (url : string) : M unit :=
  let* k := bindValues tilePos url in
  let* s := read in
  match mSqlDatabase s with
  | HasTiles t =>
      match insert_or_replace k image t with
      | inr t' =>
          emit (SqlExec (InsertOrReplace k image) true) >>
          set_mSqlDatabase (HasTiles t')
      | inl why =>
          emit (SqlExec (InsertOrReplace k image) false) >>
          qgvCritical (lastErrorText why)
      end
  | NoTiles why =>
      emit (SqlExec (InsertOrReplace k image) false) >>
      qgvCritical (lastErrorText (Unusable why))
  end >>
  qgvDebug "sql query" insertSql.

(** [removeReply]'s text.  [reply->abort()] may run the slot connected to
    [finished], which is [onReplyFinished]; [finishedSlot] stands for it. *)
Definition removeReply_body (finishedSlot : handle → GeoTilePos → M unit)
    (tilePos : GeoTilePos) : M unit :=
  let* s := read in
  match mRequest s !! tilePos with
  | None => ret tt
  | Some reply =>
      emit (TableRemove tilePos) >>
      set_mRequest (delete tilePos (mRequest s)) >>
      abort finishedSlot reply >>
      close reply >>
      deleteLater reply
  end.

(** [onReplyFinished]'s text, over the [removeReply] it calls. *)
Definition onReplyFinished_body (removeReply : GeoTilePos → M unit)
    (reply : handle) (tilePos : GeoTilePos) : M unit :=
  let* r := deref reply in
  if bool_decide (r_error r ≠ NoError) then
    (if bool_decide (r_error r ≠ OperationCanceledError)
     then qgvCritical (r_errorString r)
     else ret tt) >>
    removeReply tilePos
  else
    let* rawImage := readAll reply in
    let tile := mkImage (toGeoRect tilePos) rawImage
                  (mkDebugText (r_url r) (zoom tilePos) (pos_x tilePos) (pos_y tilePos)) in
    removeReply tilePos >>
    onTile tilePos tile >>
    cacheTile rawImage tilePos (r_url r).

(** [removeReply] and [onReplyFinished] call each other through the
    signal; [fuel] bounds the depth of that nesting. *)
Fixpoint removeReply (fuel : nat) (tilePos : GeoTilePos) : M unit :=
  match fuel with
  | O => λ _, OutOfFuel
  | S fuel' =>
      removeReply_body (onReplyFinished_body (removeReply fuel')) tilePos
  end.

(** Every level of nesting has taken one entry out of [mRequest]. *)
Definition enough (s : State) : nat := S (size (mRequest s)).

Definition onReplyFinished (reply : handle) (tilePos : GeoTilePos) : M unit :=
  λ s, onReplyFinished_body (removeReply (enough s)) reply tilePos s.

Definition cancel (tilePos : GeoTilePos) : M unit :=
  λ s, removeReply (enough s) tilePos s.

Definition request (tilePos : GeoTilePos) : M unit :=
  Q_ASSERT getNetworkManager >>
  let url := QUrl_toString (tilePosToUrl tilePos) in
  let* cachedTile := findCachedTile tilePos (tilePosToUrl tilePos) in
  if negb (isEmpty cachedTile) then
    let tile := mkImage (toGeoRect tilePos) cachedTile
                  (mkDebugText (url +:+ " Cached Tile")
                     (zoom tilePos) (pos_x tilePos) (pos_y tilePos)) in
    onTile tilePos tile
  else
    let* reply := get url in
    let* s := read in
    emit (TableInsert tilePos reply) >>
    set_mRequest (<[tilePos := reply]> (mRequest s)) >>
    connect reply tilePos >>
    qgvDebug "request" url.

(** The constructor, run against what it finds on disk: a file that does
    not open; a file that opens but on which [CREATE TABLE IF NOT EXISTS]
    fails, with the table it holds, if any; or a file on which the
    statement succeeds, with the table it held before, if any.  The
    constructor only logs a failure: the later statements are run on
    whatever is there. *)
Inductive DbFile :=
| OpenFails (lastError : string)
| CreateFails (lastError : string) (existing : option Tiles)
| Opens (existing : option Tiles).

Definition QGVLayerTilesOnline (f : DbFile) : State :=
  match f with
  | OpenFails e => mkState ∅ (NoTiles e) [] [LogCritical e]
  | CreateFails e existing =>
      mkState ∅
        (match existing with Some t => HasTiles t | None => NoTiles e end) []
        [SqlExec CreateTiles false; LogCritical e]
  | Opens existing =>
      mkState ∅ (HasTiles (default (mkTiles [] 0) existing)) []
              [SqlExec CreateTiles true]
  end.

(** ** The environment *)

(** How a running reply ends when the network, not [abort], ends it. *)
Inductive Outcome :=
| Received (body : QByteArray)
| Failed (code : NetworkError) (errorString : string).

Definition finish (o : Outcome) (r : Reply) : Reply :=
  match o with
  | Received body =>
      set_state Finished (set_error NoError (r_errorString r) (set_data body r))
  | Failed code msg => set_state Finished (set_error code msg r)
  end.

(** The reply [reply] finishes with outcome [o] and emits [finished].  A
    reply finishes once. *)
Definition replyFinished (reply : handle) (o : Outcome) : M unit :=
  let* r := deref reply in
  match r_state r with
  | Running =>
      update reply (finish o) >>
      emit_finished onReplyFinished reply
  | Finished | Aborted => ret tt
  end.

Inductive Action :=
| Request (tilePos : GeoTilePos)
| Cancel (tilePos : GeoTilePos)
| ReplyFinished (reply : handle) (o : Outcome).

Definition perform (a : Action) : M unit :=
  match a with
  | Request tilePos => request tilePos
  | Cancel tilePos => cancel tilePos
  | ReplyFinished reply o => replyFinished reply o
  end.

(** An outcome [Failed NoError _] is no outcome. *)
Definition sensible (a : Action) : Prop :=
  match a with
  | ReplyFinished _ (Failed NoError _) => False
  | _ => True
  end.

Inductive reachable : State → Prop :=
| reachable_new f : reachable (QGVLayerTilesOnline f)
| reachable_step s a s' :
    reachable s → sensible a → perform a s = Ok (tt, s') → reachable s'.

End Coordinator.

(** ** What an observer sees *)

Section Observations.
Context `{Collaborators}.

(** The events added on the way from [s] to [s']. *)
Definition events_since (s s' : State) : list Event :=
  drop (length (trace s)) (trace s').

Definition is_onTile (e : Event) : bool :=
  match e with OnTile _ _ => true | _ => false end.

Definition is_log (e : Event) : bool :=
  match e with LogCritical _ | LogDebug _ _ => true | _ => false end.

Definition is_get (e : Event) : bool :=
  match e with NetGet _ _ => true | _ => false end.

Definition is_abort (e : Event) : bool :=
  match e with ReplyAbort _ => true | _ => false end.

Definition is_cache_write (e : Event) : bool :=
  match e with SqlExec (InsertOrReplace _ _) _ => true | _ => false end.


Definition is_sql (e : Event) : bool :=
  match e with SqlExec _ _ => true | _ => false end.


(** The key [findCachedTile] and [cacheTile] use for [tilePos], given the
    provider. *)
Definition key_of (tilePos : GeoTilePos) (provider : string) : CacheKey :=
  mkKey (zoom tilePos) (pos_x tilePos) (pos_y tilePos) provider.

(** What a lookup of [k] yields, and what it leaves in the trace. *)
Definition cached (k : CacheKey) (d : SqlDatabase) : QByteArray :=
  match d with
  | HasTiles t => default [] (select_tile_data k t)
  | NoTiles _ => []
  end.

Definition lookup_events (k : CacheKey) (d : SqlDatabase) : list Event :=
  match d with
  | HasTiles t =>
      SqlExec (SelectTileData k) true ::
      match select_tile_data k t with
      | Some _ => [LogDebug "sql query" selectSql]
      | None => []
      end
  | NoTiles _ => [SqlExec (SelectTileData k) false]
  end.

(** How the [INSERT OR REPLACE] of [image] under [k] ends on [d]: with
    the new table, or with a failure. *)
Definition attempt (k : CacheKey) (image : QByteArray) (d : SqlDatabase)
    : QueryFailure + Tiles :=
  match d with
  | HasTiles t => insert_or_replace k image t
  | NoTiles why => inl (Unusable why)
  end.

(** What a store of [image] under [k] does to the database and to the
    trace. *)
Definition stored (k : CacheKey) (image : QByteArray) (d : SqlDatabase) : SqlDatabase :=
  match attempt k image d with
  | inr t' => HasTiles t'
  | inl _ => d
  end.

Definition store_events (k : CacheKey) (image : QByteArray) (d : SqlDatabase) : list Event :=
  match attempt k image d with
  | inr _ =>
      [SqlExec (InsertOrReplace k image) true; LogDebug "sql query" insertSql]
  | inl why =>
      [SqlExec (InsertOrReplace k image) false; LogCritical (lastErrorText why);
       LogDebug "sql query" insertSql]
  end.

(** The reply [removeReply] leaves behind. *)
Definition torn_down (r : Reply) : Reply :=
  set_deleteLater
    (set_closed
       (match r_state r with
        | Running =>
            set_state Aborted
              (set_state Finished
                 (set_error OperationCanceledError "Operation canceled"
                    (set_closed r)))
        | Finished | Aborted => r
        end)).

Definition removal_events (tilePos : GeoTilePos) (reply : handle) : list Event :=
  [TableRemove tilePos; ReplyAbort reply; ReplyClose reply; ReplyDeleteLater reply].

(** The state after [removeReply tilePos], by what [mRequest] held. *)
Definition removed (tilePos : GeoTilePos) (s : State) : State :=
  match mRequest s !! tilePos with
  | None => s
  | Some reply =>
      mkState (delete tilePos (mRequest s)) (mSqlDatabase s)
        (match replies s !! reply with
         | Some r => <[reply := torn_down r]> (replies s)
         | None => replies s
         end)
        (trace s ++ removal_events tilePos reply)
  end.

Definition removal_trace (tilePos : GeoTilePos) (s : State) : list Event :=
  match mRequest s !! tilePos with
  | Some reply => removal_events tilePos reply
  | None => []
  end.

(** The tile [onReplyFinished] builds from the bytes of a reply. *)
Definition tile_of (tilePos : GeoTilePos) (bytes : QByteArray) (source : string) : QGVImage :=
  mkImage (toGeoRect tilePos) bytes
    (mkDebugText source (zoom tilePos) (pos_x tilePos) (pos_y tilePos)).

(** The state after [onReplyFinished reply tilePos] for a reply [r]
    without error whose URL names provider [p]. *)
Definition completed (reply : handle) (tilePos : GeoTilePos) (r : Reply)
    (p : string) (s : State) : State :=
  let s1 := removed tilePos
              (mkState (mRequest s) (mSqlDatabase s)
                 (<[reply := set_data [] r]> (replies s)) (trace s)) in
  let k := key_of tilePos p in
  mkState (mRequest s1) (stored k (r_data r) (mSqlDatabase s1)) (replies s1)
    (trace s1 ++ OnTile tilePos (tile_of tilePos (r_data r) (r_url r))
       :: store_events k (r_data r) (mSqlDatabase s1)).

(** The same for a reply with an error. *)
Definition failure_log (r : Reply) : list Event :=
  if bool_decide (r_error r ≠ OperationCanceledError)
  then [LogCritical (r_errorString r)] else [].

Definition failed (tilePos : GeoTilePos) (r : Reply) (s : State) : State :=
  removed tilePos
    (mkState (mRequest s) (mSqlDatabase s) (replies s)
       (trace s ++ failure_log r)).

(** The state after [request tilePos] when the URL of [tilePos] names
    provider [p]: delivery from the cache, or a new fetch. *)
Definition requested (tilePos : GeoTilePos) (p : string) (s : State) : State :=
  let url := QUrl_toString (tilePosToUrl tilePos) in
  let k := key_of tilePos p in
  let cachedTile := cached k (mSqlDatabase s) in
  if negb (isEmpty cachedTile) then
    mkState (mRequest s) (mSqlDatabase s) (replies s)
      (trace s ++ lookup_events k (mSqlDatabase s)
         ++ [OnTile tilePos (tile_of tilePos cachedTile (url +:+ " Cached Tile"))])
  else
    let reply := length (replies s) in
    mkState (<[tilePos := reply]> (mRequest s)) (mSqlDatabase s)
      (replies s ++ [set_slot tilePos (new_reply url)])
      (trace s ++ lookup_events k (mSqlDatabase s)
         ++ [NetGet url reply; TableInsert tilePos reply; LogDebug "request" url]).

(** The state in which the slot of [reply] runs after the network has
    ended it with [o]. *)
Definition ended (reply : handle) (o : Outcome) (r : Reply) (s : State) : State :=
  mkState (mRequest s) (mSqlDatabase s) (<[reply := finish o r]> (replies s))
    (trace s).

(** The entry for [tilePos], if there is one, points to a reply that, if
    it still runs, is connected for [tilePos]. *)
Definition entry_ok (s : State) (tilePos : GeoTilePos) : Prop :=
  ∀ reply, mRequest s !! tilePos = Some reply →
    ∃ r, replies s !! reply = Some r
         ∧ (r_state r = Running → r_slot r = Some tilePos).

(** Every entry of [mRequest] points to a running reply whose [finished]
    signal is connected for the entry's own tile position. *)
Definition fetching (s : State) (tilePos : GeoTilePos) (reply : handle) : Prop :=
  ∃ r, replies s !! reply = Some r ∧ r_state r = Running
       ∧ r_slot r = Some tilePos.

Definition entries_live (s : State) : Prop :=
  ∀ tilePos reply, mRequest s !! tilePos = Some reply → fetching s tilePos reply.

(** A lookup for [tilePos] finds no bytes. *)
Definition cache_miss (s : State) (tilePos : GeoTilePos) : Prop :=
  ∃ p, provider_of (tilePosToUrl tilePos) = Some p
       ∧ cached (key_of tilePos p) (mSqlDatabase s) = [].

Definition entries_missed (s : State) : Prop :=
  ∀ tilePos reply, mRequest s !! tilePos = Some reply →
    getNetworkManager = true ∧ cache_miss s tilePos.

Definition invariant (s : State) : Prop := entries_live s ∧ entries_missed s.

(** Started with fewer than [bound] entries in [mRequest], [m] does not
    run out of fuel and adds no entry. *)
Definition within {A} (bound : nat) (m : M A) : Prop :=
  ∀ s, (size (mRequest s) < bound)%nat →
    match m s with
    | Ok (_, s') => (size (mRequest s') ≤ size (mRequest s))%nat
    | Crash => True
    | OutOfFuel => False
    end.

(** Running a list of actions from [s]. *)
Fixpoint run (acts : list Action) (s : State) : result (unit * State) :=
  match acts with
  | [] => Ok (tt, s)
  | a :: acts' =>
      match perform a s with
      | Ok (_, s') => run acts' s'
      | Crash => Crash
      | OutOfFuel => OutOfFuel
      end
  end.

(** The state a new layer is in after [acts], or the new layer itself if
    they do not all return. *)
Definition state_after (f : DbFile) (acts : list Action) : State :=
  match run acts (QGVLayerTilesOnline f) with
  | Ok (_, s) => s
  | _ => QGVLayerTilesOnline f
  end.

(** [n] requests for the same tile, one after the other. *)
Fixpoint requests (n : nat) (tilePos : GeoTilePos) : M unit :=
  match n with
  | O => ret tt
  | S n' => request tilePos >> requests n' tilePos
  end.



End Observations.

(** ** The rest of the class, and what is observed of it *)

Section Further.
Context `{Collaborators}.

(** The destructor, [qDeleteAll(mRequest)]: the reply pointers it passes
    to [delete], one per entry of the table. *)
Definition destructor (s : State) : list handle :=
  (map_to_list (mRequest s)).*2.

(** The tile an action is about: the tile requested or cancelled, or the
    tile the finishing reply is connected for. *)
Definition subject (s : State) (a : Action) : option GeoTilePos :=
  match a with
  | Request tilePos | Cancel tilePos => Some tilePos
  | ReplyFinished reply _ => replies s !! reply ≫= r_slot
  end.

(** A delivered tile has the rectangle of the tile it is delivered for. *)
Definition delivery_ok (e : Event) : Prop :=
  match e with
  | OnTile tilePos tile => geometry tile = toGeoRect tilePos
  | _ => True
  end.

(** A running reply has been neither closed nor scheduled for deletion. *)
Definition running_untouched (s : State) : Prop :=
  ∀ reply r, replies s !! reply = Some r → r_state r = Running →
    r_closed r = false ∧ r_deleteLater r = false.

End Further.

(** How often [sep] occurs in [s]. *)
Fixpoint occurrences (sep : ascii) (s : string) : nat :=
  match s with
  | EmptyString => O
  | String c s' =>
      if Ascii.eqb c sep then S (occurrences sep s') else occurrences sep s'
  end.

(** The constraints of the schema: the rows differ in their unique
    columns, and in their rowids. *)
Definition table_ok (t : Tiles) : Prop :=
  NoDup (key_of_row <$> rows t) ∧ NoDup (rowid <$> rows t).

Definition database_ok (d : SqlDatabase) : Prop :=
  match d with
  | HasTiles t => table_ok t
  | NoTiles _ => True
  end.

Definition file_ok (f : DbFile) : Prop :=
  match f with
  | Opens (Some t) | CreateFails _ (Some t) => table_ok t
  | _ => True
  end.

(** ** A tile server for the examples *)

(** One decimal digit is all the examples need. *)
Definition digit (z : Z) : string :=
  match z with
  | 0 => "0" | 1 => "1" | 2 => "2" | 3 => "3" | 4 => "4"
  | 5 => "5" | 6 => "6" | 7 => "7" | 8 => "8" | _ => "9"
  end.

(** [http://tile.example.com/{z}/{x}/{y}.png]; rectangles are named by
    their tile, URLs print as they are written. *)
Definition example : Collaborators := {|
  GeoRect := GeoTilePos;
  toGeoRect := λ t, t;
  tilePosToUrl := λ t,
    "http://tile.example.com/" +:+ digit (zoom t) +:+ "/"
      +:+ digit (pos_x t) +:+ "/" +:+ digit (pos_y t) +:+ ".png";
  QUrl_toString := λ u, u;
  getNetworkManager := true;
  QT_NO_DEBUG := false;
  lastErrorText := λ why,
    match why with
    | Unusable _ => "Driver not loaded Driver not loaded"
    | NotNull =>
        "NOT NULL constraint failed: Tiles.tile_data Unable to fetch row"
    | Full => "database or disk is full Unable to fetch row"
    end;
|}.

Definition tile312 : GeoTilePos := mkGeoTilePos 3 1 2.

Definition png : QByteArray := [Byte.x89; Byte.x50; Byte.x4e; Byte.x47].

(** A store that already holds tile (3,1,2) of [tile.example.com]. *)
Definition populated : DbFile :=
  Opens (Some (mkTiles [mkRow 1 3 1 2 "tile.example.com" png] 1)).

(** A new layer over an empty store, and the same layer once it has
    requested tile (3,1,2). *)
Definition new_layer : @State example := @QGVLayerTilesOnline example (Opens None).

Definition fetching312 : @State example :=
  @state_after example (Opens None) [Request tile312].

(** The reply that request has created. *)
Definition reply312 : Reply :=
  set_slot tile312 (new_reply "http://tile.example.com/3/1/2.png").

(** A store that holds an empty blob for that tile. *)
Definition hollow : DbFile :=
  Opens (Some (mkTiles [mkRow 1 3 1 2 "tile.example.com" []] 1)).

(** More states of the example layer: two tiles being fetched, one tile
    requested twice, one tile cancelled, one tile received, and a tile
    served from the populated store. *)
Definition tile313 : GeoTilePos := mkGeoTilePos 3 1 3.

Definition fetching_both : @State example :=
  @state_after example (Opens None) [Request tile312; Request tile313].

Definition fetching_twice : @State example :=
  @state_after example (Opens None) [Request tile312; Request tile312].

Definition cancelled312 : @State example :=
  @state_after example (Opens None) [Request tile312; Cancel tile312].

Definition received312 : @State example :=
  @state_after example (Opens None)
    [Request tile312; ReplyFinished 0%nat (Received png)].

Definition served312 : @State example :=
  @state_after example populated [Request tile312].

(** A file that does not open. *)
Definition unopened : DbFile := OpenFails "unable to open database file".

(** A subclass that writes the host with capitals, under a [QUrl] that
    prints hosts in lower case. *)
Definition capitals : Collaborators := {|
  GeoRect := GeoTilePos;
  toGeoRect := λ t, t;
  tilePosToUrl := λ t,
    "http://Tile.Example.com/" +:+ digit (zoom t) +:+ "/"
      +:+ digit (pos_x t) +:+ "/" +:+ digit (pos_y t) +:+ ".png";
  QUrl_toString := λ u,
    if String.eqb u "http://Tile.Example.com/3/1/2.png"
    then "http://tile.example.com/3/1/2.png" else u;
  getNetworkManager := true;
  QT_NO_DEBUG := true;
  lastErrorText := lastErrorText (Collaborators := example);
|}.

(** The example server in a build without assertions, on a map that has
    no network manager. *)
Definition unmanaged : Collaborators := {|
  GeoRect := GeoTilePos;
  toGeoRect := λ t, t;
  tilePosToUrl := tilePosToUrl (Collaborators := example);
  QUrl_toString := λ u, u;
  getNetworkManager := false;
  QT_NO_DEBUG := true;
  lastErrorText := lastErrorText (Collaborators := example);
|}.

(** ** Equations of the computations *)

Ltac msimpl :=
  cbn [mRequest mSqlDatabase replies trace
       r_url r_slot r_state r_error r_errorString r_data r_closed r_deleteLater
       set_slot set_state set_error set_data set_closed set_deleteLater
       finish new_reply fst snd].

Ltac munfold :=
  unfold abort, close, deleteLater, readAll, connect, get, emit_finished,
         update, deref, onTile, qgvCritical, qgvDebug, Q_ASSERT,
         bind, read, emit, set_mRequest, set_mSqlDatabase, set_replies,
         ret, crash.

Ltac mlookup :=
  rewrite ?list_lookup_insert_eq by (rewrite ?length_insert; done).

Ltac mrun := repeat (progress (msimpl; mlookup)).

Section Equations.
Context `{Collaborators}.

Lemma bind_Ok {A B} (m : M A) (k : A → M B) s a s' :
  m s = Ok (a, s') → bind m k s = k a s'.
Proof. unfold bind. by intros ->. Qed.

Lemma deref_Some reply r s :
  replies s !! reply = Some r → deref reply s = Ok (r, s).
Proof. unfold deref. by intros ->. Qed.

Lemma update_Some reply r f s :
  replies s !! reply = Some r →
  update reply f s
  = Ok (tt, mkState (mRequest s) (mSqlDatabase s)
              (<[reply := f r]> (replies s)) (trace s)).
Proof. intros Hr. unfold update. by rewrite (bind_Ok _ _ _ _ _ (deref_Some _ _ _ Hr)). Qed.

Lemma removeReply_None fuel tilePos s :
  mRequest s !! tilePos = None → removeReply (S fuel) tilePos s = Ok (tt, s).
Proof.
  intros Hm. simpl. unfold removeReply_body, bind, read. by rewrite Hm.
Qed.

Lemma removeReply_Some fuel tilePos reply r s :
  mRequest s !! tilePos = Some reply →
  replies s !! reply = Some r →
  (r_state r = Running → r_slot r = Some tilePos) →
  removeReply (S (S fuel)) tilePos s = Ok (tt, removed tilePos s).
Proof.
  intros Hm Hr Hslot.
  assert (Hlt : (reply < length (replies s))%nat) by (eapply lookup_lt_Some; eauto).
  change (removeReply (S (S fuel)) tilePos)
    with (removeReply_body (onReplyFinished_body (removeReply (S fuel))) tilePos).
  unfold removeReply_body, removed, torn_down, removal_events.
  munfold. rewrite Hm. msimpl. rewrite Hr.
  destruct (r_state r) eqn:Hst; msimpl; rewrite Hr; mrun.
  - rewrite (Hslot eq_refl).
    unfold onReplyFinished_body. munfold. mrun.
    rewrite bool_decide_true by done.
    rewrite bool_decide_false by (intros ?; done).
    rewrite removeReply_None by (msimpl; apply lookup_delete_eq).
    mrun. by rewrite !list_insert_insert_eq, <- !app_assoc.
  - by rewrite !list_insert_insert_eq, <- !app_assoc.
  - by rewrite !list_insert_insert_eq, <- !app_assoc.
Qed.

Lemma lookup_Some_size (m : gmap GeoTilePos nat) tilePos reply :
  m !! tilePos = Some reply → ∃ n, size m = S n.
Proof.
  intros Hm. destruct (size m) as [|n] eqn:Hsz; [|eauto].
  apply map_size_empty_inv in Hsz. subst m.
  by rewrite lookup_empty in Hm.
Qed.

(** With more fuel than [mRequest] has entries, [removeReply] returns. *)
Lemma removeReply_eq fuel tilePos s :
  entry_ok s tilePos → (size (mRequest s) < fuel)%nat →
  removeReply fuel tilePos s = Ok (tt, removed tilePos s).
Proof.
  intros Hok Hfuel.
  destruct (mRequest s !! tilePos) as [reply|] eqn:Hm.
  - destruct (Hok _ Hm) as (r & Hr & Hslot).
    destruct (lookup_Some_size _ _ _ Hm) as [n Hn].
    destruct fuel as [|[|fuel]]; [lia | lia |].
    eapply removeReply_Some; eauto.
  - destruct fuel as [|fuel]; [lia|].
    rewrite removeReply_None by done. unfold removed. by rewrite Hm.
Qed.

Lemma cancel_eq tilePos s :
  entry_ok s tilePos → cancel tilePos s = Ok (tt, removed tilePos s).
Proof. intros Hok. unfold cancel, enough. apply removeReply_eq; [done | lia]. Qed.

Lemma removed_mRequest tilePos s :
  mRequest (removed tilePos s) = delete tilePos (mRequest s).
Proof.
  unfold removed. destruct (mRequest s !! tilePos) eqn:Hm; [done|].
  by rewrite delete_id.
Qed.

Lemma removed_mSqlDatabase tilePos s :
  mSqlDatabase (removed tilePos s) = mSqlDatabase s.
Proof. unfold removed. by destruct (mRequest s !! tilePos). Qed.

Lemma removed_trace tilePos s :
  trace (removed tilePos s) = trace s ++ removal_trace tilePos s.
Proof.
  unfold removed, removal_trace.
  destruct (mRequest s !! tilePos); [done|]. by rewrite app_nil_r.
Qed.

Lemma removed_length tilePos s :
  length (replies (removed tilePos s)) = length (replies s).
Proof.
  unfold removed. destruct (mRequest s !! tilePos) as [h|]; [|done]. msimpl.
  destruct (replies s !! h); [|done]. by rewrite length_insert.
Qed.

Lemma removed_replies_ne tilePos s reply :
  mRequest s !! tilePos ≠ Some reply →
  replies (removed tilePos s) !! reply = replies s !! reply.
Proof.
  intros Hne. unfold removed.
  destruct (mRequest s !! tilePos) as [h|]; [|done]. msimpl.
  destruct (replies s !! h); [|done].
  apply list_lookup_insert_ne. congruence.
Qed.

Lemma findCachedTile_eq tilePos url p s :
  provider_of url = Some p →
  findCachedTile tilePos url s
  = Ok (cached (key_of tilePos p) (mSqlDatabase s),
        mkState (mRequest s) (mSqlDatabase s) (replies s)
          (trace s ++ lookup_events (key_of tilePos p) (mSqlDatabase s))).
Proof.
  intros Hp. unfold findCachedTile, bindValues. rewrite Hp. munfold.
  unfold cached, lookup_events, key_of.
  destruct (mSqlDatabase s) as [e|t] eqn:Hd; msimpl; rewrite ?Hd; [done|].
  destruct (select_tile_data _ t); msimpl; rewrite ?Hd; [|done].
  by rewrite <- app_assoc.
Qed.

Lemma findCachedTile_crash tilePos url s :
  provider_of url = None → findCachedTile tilePos url s = Crash.
Proof. intros Hp. unfold findCachedTile, bindValues. by rewrite Hp. Qed.

Lemma cacheTile_eq image tilePos url p s :
  provider_of url = Some p →
  cacheTile image tilePos url s
  = Ok (tt, mkState (mRequest s)
              (stored (key_of tilePos p) image (mSqlDatabase s)) (replies s)
              (trace s ++ store_events (key_of tilePos p) image (mSqlDatabase s))).
Proof.
  intros Hp. unfold cacheTile, bindValues. rewrite Hp. munfold.
  unfold stored, store_events, attempt.
  change (mkKey (zoom tilePos) (pos_x tilePos) (pos_y tilePos) p)
    with (key_of tilePos p).
  destruct (mSqlDatabase s) as [e|t] eqn:Hd; msimpl; rewrite ?Hd.
  - by rewrite <- !app_assoc.
  - destruct (insert_or_replace (key_of tilePos p) image t) as [why|t'];
      msimpl; rewrite ?Hd; by rewrite <- !app_assoc.
Qed.

Lemma cacheTile_crash image tilePos url s :
  provider_of url = None → cacheTile image tilePos url s = Crash.
Proof. intros Hp. unfold cacheTile, bindValues. by rewrite Hp. Qed.

Lemma request_eq tilePos p s :
  getNetworkManager = true →
  provider_of (tilePosToUrl tilePos) = Some p →
  request tilePos s = Ok (tt, requested tilePos p s).
Proof.
  intros Hnm Hp. unfold request, requested. rewrite Hnm.
  unfold Q_ASSERT. unfold bind at 1.
  assert ((if QT_NO_DEBUG then ret tt else ret tt) s = Ok (tt, s)) as ->
    by (by destruct QT_NO_DEBUG).
  rewrite (bind_Ok _ _ _ _ _ (findCachedTile_eq tilePos _ p s Hp)).
  destruct (isEmpty (cached (key_of tilePos p) (mSqlDatabase s))); cbn [negb].
  - munfold. rewrite Hnm. msimpl.
    rewrite list_lookup_middle by done. msimpl.
    rewrite insert_app_r_alt by done. rewrite Nat.sub_diag.
    cbn [insert list_insert]. by rewrite <- !app_assoc.
  - unfold onTile, emit, tile_of. msimpl. by rewrite <- !app_assoc.
Qed.

Lemma request_crash tilePos s :
  provider_of (tilePosToUrl tilePos) = None → request tilePos s = Crash.
Proof.
  intros Hp. unfold request, Q_ASSERT. unfold bind at 1.
  destruct QT_NO_DEBUG, getNetworkManager; try done;
    unfold ret at 1; unfold bind; by rewrite findCachedTile_crash.
Qed.

(** Without a network manager: the assertion stops a debug build; a
    build without assertions goes on, delivers on a hit, and on a miss
    calls [get] through the null manager. *)
Lemma request_unmanaged tilePos s :
  getNetworkManager = false →
  request tilePos s
  = if QT_NO_DEBUG then
      match provider_of (tilePosToUrl tilePos) with
      | Some p =>
          if isEmpty (cached (key_of tilePos p) (mSqlDatabase s)) then Crash
          else Ok (tt, requested tilePos p s)
      | None => Crash
      end
    else Crash.
Proof.
  intros Hnm.
  destruct (provider_of (tilePosToUrl tilePos)) as [p|] eqn:Hp.
  2:{ rewrite request_crash by done. by destruct QT_NO_DEBUG. }
  unfold request, requested, Q_ASSERT. rewrite Hnm. unfold bind at 1.
  destruct QT_NO_DEBUG; [|done]. unfold ret at 1.
  rewrite (bind_Ok _ _ _ _ _ (findCachedTile_eq tilePos _ p s Hp)).
  destruct (isEmpty (cached (key_of tilePos p) (mSqlDatabase s))); cbn [negb].
  - unfold bind, get. by rewrite Hnm.
  - unfold onTile, emit, tile_of. msimpl. by rewrite <- !app_assoc.
Qed.

(** A request that returns has found a provider in the URL, and has
    either hit the cache or had a network manager to fetch with. *)
Lemma request_Ok tilePos s s' :
  request tilePos s = Ok (tt, s') →
  ∃ p, provider_of (tilePosToUrl tilePos) = Some p
       ∧ s' = requested tilePos p s
       ∧ (isEmpty (cached (key_of tilePos p) (mSqlDatabase s)) = true →
          getNetworkManager = true).
Proof.
  intros Hreq.
  destruct (provider_of (tilePosToUrl tilePos)) as [p|] eqn:Hp;
    [|by rewrite request_crash in Hreq].
  exists p. split; [done|].
  destruct getNetworkManager eqn:Hnm.
  - rewrite (request_eq _ p) in Hreq by done. by injection Hreq as <-.
  - rewrite request_unmanaged, Hp in Hreq by done.
    destruct QT_NO_DEBUG; [|done].
    destruct (isEmpty _); [done|]. injection Hreq as <-. by split.
Qed.

Lemma entry_ok_update reply r r' tilePos s :
  replies s !! reply = Some r →
  (r_state r' = Running → r_state r = Running ∧ r_slot r' = r_slot r) →
  entry_ok s tilePos →
  entry_ok (mkState (mRequest s) (mSqlDatabase s)
              (<[reply := r']> (replies s)) (trace s)) tilePos.
Proof.
  intros Hr Hr' Hok h Hm. cbn [mRequest replies] in *.
  destruct (decide (h = reply)) as [->|Hne].
  - exists r'. split.
    + apply list_lookup_insert_eq. by eapply lookup_lt_Some.
    + intros Hst. destruct (Hr' Hst) as [Hst' ->].
      destruct (Hok _ Hm) as (r0 & Hr0 & Hs0).
      rewrite Hr in Hr0. injection Hr0 as <-. auto.
  - destruct (Hok _ Hm) as (r0 & Hr0 & Hs0). exists r0.
    by rewrite list_lookup_insert_ne.
Qed.

Lemma entry_ok_trace tilePos s evs :
  entry_ok s tilePos →
  entry_ok (mkState (mRequest s) (mSqlDatabase s) (replies s) evs) tilePos.
Proof. intros Hok h Hm. exact (Hok h Hm). Qed.

Lemma onReplyFinished_error reply tilePos r s :
  replies s !! reply = Some r → r_error r ≠ NoError →
  entry_ok s tilePos →
  onReplyFinished reply tilePos s = Ok (tt, failed tilePos r s).
Proof.
  intros Hr He Hok. unfold onReplyFinished, onReplyFinished_body, failed, failure_log.
  rewrite (bind_Ok _ _ _ _ _ (deref_Some _ _ _ Hr)).
  rewrite bool_decide_true by done.
  destruct (bool_decide (r_error r ≠ OperationCanceledError)).
  - unfold bind, qgvCritical, emit.
    rewrite removeReply_eq; [done | by apply entry_ok_trace | unfold enough; msimpl; lia].
  - unfold bind, ret.
    rewrite removeReply_eq; [|done| unfold enough; lia].
    destruct s. msimpl. by rewrite app_nil_r.
Qed.

Lemma onReplyFinished_success reply tilePos r s :
  replies s !! reply = Some r → r_error r = NoError →
  entry_ok s tilePos →
  onReplyFinished reply tilePos s
  = match provider_of (r_url r) with
    | Some p => Ok (tt, completed reply tilePos r p s)
    | None => Crash
    end.
Proof.
  intros Hr He Hok. unfold onReplyFinished, onReplyFinished_body, completed.
  rewrite (bind_Ok _ _ _ _ _ (deref_Some _ _ _ Hr)).
  rewrite He. rewrite bool_decide_false by (intros ?; done).
  munfold. repeat (rewrite Hr; msimpl).
  rewrite removeReply_eq; [| |unfold enough; msimpl; lia].
  2:{ eapply entry_ok_update; [done| |done]. by msimpl. }
  msimpl.
  destruct (provider_of (r_url r)) as [p|] eqn:Hp.
  - rewrite (cacheTile_eq _ _ _ p) by done. msimpl.
    unfold tile_of. by rewrite <- !app_assoc.
  - by rewrite cacheTile_crash.
Qed.

Lemma replyFinished_Running reply o r tilePos s :
  replies s !! reply = Some r → r_state r = Running →
  r_slot r = Some tilePos →
  replyFinished reply o s = onReplyFinished reply tilePos (ended reply o r s).
Proof.
  intros Hr Hst Hsl. unfold replyFinished, ended.
  assert (Hlt : (reply < length (replies s))%nat) by (eapply lookup_lt_Some; eauto).
  munfold. rewrite Hr, Hst. rewrite Hr. mrun.
  destruct o; msimpl; by rewrite Hsl.
Qed.

Lemma replyFinished_unconnected reply o r s :
  replies s !! reply = Some r → r_state r = Running → r_slot r = None →
  replyFinished reply o s = Ok (tt, ended reply o r s).
Proof.
  intros Hr Hst Hsl. unfold replyFinished, ended.
  assert (Hlt : (reply < length (replies s))%nat) by (eapply lookup_lt_Some; eauto).
  munfold. rewrite Hr, Hst. rewrite Hr. mrun.
  destruct o; msimpl; by rewrite Hsl.
Qed.

Lemma replyFinished_done reply o r s :
  replies s !! reply = Some r → r_state r ≠ Running →
  replyFinished reply o s = Ok (tt, s).
Proof.
  intros Hr Hst. unfold replyFinished. munfold. rewrite Hr.
  by destruct (r_state r).
Qed.

Lemma replyFinished_dangling reply o s :
  replies s !! reply = None → replyFinished reply o s = Crash.
Proof. intros Hr. unfold replyFinished. munfold. by rewrite Hr. Qed.

End Equations.

(** ** Fuel *)

Section Fuel.
Context `{Collaborators}.

Lemma within_bind {A B} bound (m : M A) (k : A → M B) :
  within bound m → (∀ a, within bound (k a)) → within bound (bind m k).
Proof.
  intros Hm Hk s Hs. unfold bind. specialize (Hm s Hs).
  destruct (m s) as [[a s']| |]; [|done|done].
  specialize (Hk a s' ltac:(lia)).
  destruct (k a s') as [[b s'']| |]; [lia|done|done].
Qed.

Lemma within_ret {A} bound (a : A) : within bound (ret a).
Proof. intros s Hs. unfold ret. lia. Qed.

Lemma within_emit bound e : within bound (emit e).
Proof. intros s Hs. unfold emit. cbn [mRequest]. lia. Qed.

Lemma within_deref bound reply : within bound (deref reply).
Proof.
  intros s Hs. unfold deref. destruct (replies s !! reply); [lia | done].
Qed.

Lemma within_update bound reply f : within bound (update reply f).
Proof.
  unfold update. apply within_bind; [apply within_deref|]. intros r.
  apply within_bind; intros s Hs; [unfold read; lia|].
  intros Hs'. unfold set_replies. cbn [mRequest]. lia.
Qed.

Lemma within_emit_finished bound slot reply :
  (∀ h t, within bound (slot h t)) → within bound (emit_finished slot reply).
Proof.
  intros Hslot. unfold emit_finished.
  apply within_bind; [apply within_deref|]. intros r.
  destruct (r_slot r); [apply Hslot | apply within_ret].
Qed.

Lemma within_abort bound slot reply :
  (∀ h t, within bound (slot h t)) → within bound (abort slot reply).
Proof.
  intros Hslot. unfold abort.
  apply within_bind; [apply within_emit|]. intros _.
  apply within_bind; [apply within_deref|]. intros r.
  destruct (r_state r); try apply within_ret.
  apply within_bind; [apply within_update|]. intros _.
  apply within_bind; [by apply within_emit_finished|]. intros _.
  apply within_update.
Qed.

Lemma within_teardown bound slot reply :
  (∀ h t, within bound (slot h t)) →
  within bound (abort slot reply >> close reply >> deleteLater reply).
Proof.
  intros Hslot. apply within_bind; [by apply within_abort|]. intros _.
  apply within_bind; intros; unfold close, deleteLater;
    (apply within_bind; [apply within_emit | intros; apply within_update]).
Qed.

Lemma within_cacheTile bound image tilePos url :
  within bound (cacheTile image tilePos url).
Proof.
  intros s Hs.
  destruct (provider_of url) as [p|] eqn:Hp.
  - rewrite (cacheTile_eq _ _ _ p) by done. cbn [mRequest]. lia.
  - by rewrite cacheTile_crash.
Qed.

Lemma within_onReplyFinished_body bound removeReply reply tilePos :
  (∀ t, within bound (removeReply t)) →
  within bound (onReplyFinished_body removeReply reply tilePos).
Proof.
  intros Hrec. unfold onReplyFinished_body.
  apply within_bind; [apply within_deref|]. intros r.
  destruct (bool_decide (r_error r ≠ NoError)).
  - apply within_bind; [|intros; apply Hrec].
    destruct (bool_decide _); [apply within_emit | apply within_ret].
  - apply within_bind.
    { unfold readAll. apply within_bind; [apply within_deref|]. intros r'.
      apply within_bind; [apply within_update | intros; apply within_ret]. }
    intros rawImage. apply within_bind; [apply Hrec|]. intros _.
    apply within_bind; [apply within_emit | intros; apply within_cacheTile].
Qed.

Lemma within_removeReply_body bound slot tilePos :
  (∀ h t, within bound (slot h t)) →
  within (S bound) (removeReply_body slot tilePos).
Proof.
  intros Hslot s Hs. unfold removeReply_body. unfold bind at 1. unfold read.
  destruct (mRequest s !! tilePos) as [reply|] eqn:Hm; [|unfold ret; lia].
  unfold bind at 1. unfold emit at 1. unfold bind at 1. unfold set_mRequest.
  pose proof (map_size_delete_Some tilePos (mRequest s) (mk_is_Some _ _ Hm))
    as Hsize.
  destruct (lookup_Some_size _ _ _ Hm) as [n Hn].
  match goal with |- context [bind _ _ ?x] => set (s1 := x) end.
  pose proof (within_teardown bound slot reply Hslot s1) as Hrest.
  change (mRequest s1) with (delete tilePos (mRequest s)) in Hrest.
  specialize (Hrest ltac:(lia)).
  change (bind (abort slot reply)
            (λ _, bind (close reply) (λ _, deleteLater reply)) s1)
    with ((abort slot reply >> close reply >> deleteLater reply) s1).
  destruct ((abort slot reply >> close reply >> deleteLater reply) s1)
    as [[[] s']| |]; [lia|done|done].
Qed.

(** [removeReply] returns whenever its fuel exceeds the size of the
    table, and so do the methods that call it with [enough] fuel. *)
Lemma within_removeReply fuel tilePos : within fuel (removeReply fuel tilePos).
Proof.
  revert tilePos. induction fuel as [|fuel IH]; intros tilePos.
  - intros s Hs. lia.
  - cbn [removeReply]. apply within_removeReply_body. intros h t.
    by apply within_onReplyFinished_body.
Qed.

Lemma cancel_returns tilePos s : cancel tilePos s ≠ OutOfFuel.
Proof.
  unfold cancel.
  pose proof (within_removeReply (enough s) tilePos s) as Hw.
  specialize (Hw ltac:(unfold enough; lia)).
  by destruct (removeReply (enough s) tilePos s) as [[[] s']| |].
Qed.

Lemma onReplyFinished_returns reply tilePos s :
  onReplyFinished reply tilePos s ≠ OutOfFuel.
Proof.
  unfold onReplyFinished.
  pose proof (within_onReplyFinished_body (enough s) (removeReply (enough s))
                reply tilePos (within_removeReply (enough s)) s) as Hw.
  specialize (Hw ltac:(unfold enough; lia)).
  by destruct (onReplyFinished_body _ reply tilePos s) as [[[] s']| |].
Qed.

Lemma replyFinished_returns reply o s : replyFinished reply o s ≠ OutOfFuel.
Proof.
  destruct (replies s !! reply) as [r|] eqn:Hr;
    [|by rewrite replyFinished_dangling].
  destruct (decide (r_state r = Running)) as [Hst|Hst];
    [|by rewrite (replyFinished_done _ _ r)].
  destruct (r_slot r) as [t|] eqn:Hsl.
  - rewrite (replyFinished_Running _ _ r t) by done.
    apply onReplyFinished_returns.
  - by rewrite (replyFinished_unconnected _ _ r).
Qed.

Lemma request_returns tilePos s : request tilePos s ≠ OutOfFuel.
Proof.
  destruct (provider_of (tilePosToUrl tilePos)) as [p|] eqn:Hp;
    [|by rewrite request_crash].
  destruct getNetworkManager eqn:Hnm; [by rewrite (request_eq _ p)|].
  rewrite request_unmanaged, Hp by done.
  destruct QT_NO_DEBUG; [|done]. by destruct (isEmpty _).
Qed.

Lemma perform_returns a s : perform a s ≠ OutOfFuel.
Proof.
  destruct a; cbn [perform];
    [apply request_returns | apply cancel_returns | apply replyFinished_returns].
Qed.

End Fuel.

(** ** Splitting *)

Section Split.

Lemma split_not_nil sep s : split sep s ≠ [].
Proof.
  destruct s as [|c s]; cbn [split]; [done|].
  destruct (Ascii.eqb c sep); [done|]. by destruct (split sep s).
Qed.

Lemma join_split sep s : join sep (split sep s) = s.
Proof.
  induction s as [|c s IH]; [done|]. cbn [split].
  destruct (Ascii.eqb c sep) eqn:Hc.
  - apply Ascii.eqb_eq in Hc as ->.
    pose proof (split_not_nil sep s) as Hne.
    destruct (split sep s) as [|tok toks]; [done|].
    change (join sep (EmptyString :: tok :: toks))
      with (String sep (join sep (tok :: toks))).
    by rewrite IH.
  - pose proof (split_not_nil sep s) as Hne.
    destruct (split sep s) as [|tok toks]; [done|].
    destruct toks as [|tok' toks]; cbn [join] in *; by rewrite <- IH.
Qed.

Lemma split_free sep s : Forall (λ tok, free_of sep tok = true) (split sep s).
Proof.
  induction s as [|c s IH]; cbn [split]; [by repeat constructor|].
  destruct (Ascii.eqb c sep) eqn:Hc; [by constructor|].
  destruct (split sep s) as [|tok toks]; [repeat constructor; cbn; by rewrite Hc|].
  inversion IH as [|? ? Htok Htoks]; subst. constructor; [|done].
  cbn [free_of]. by rewrite Hc, Htok.
Qed.




End Split.

(** ** The table [Tiles] *)

Section Table.

Lemma find_filter_other (k k' : CacheKey) (l : list Row) :
  k ≠ k' →
  List.find (has_key k') (List.filter (λ r, negb (has_key k r)) l)
  = List.find (has_key k') l.
Proof.
  intros Hne. induction l as [|r l IH]; [done|]. cbn [List.filter List.find].
  destruct (has_key k r) eqn:Hk; cbn [negb List.find].
  - apply bool_decide_eq_true in Hk.
    assert (has_key k' r = false) as ->
      by (apply bool_decide_eq_false; congruence).
    exact IH.
  - by rewrite IH.
Qed.

Lemma find_app_None {A} (p : A → bool) (l1 l2 : list A) :
  List.find p l1 = None → List.find p (l1 ++ l2) = List.find p l2.
Proof.
  induction l1 as [|a l1 IH]; [done|]. cbn [List.find app].
  destruct (p a); [done | exact IH].
Qed.

Lemma find_app_Some {A} (p : A → bool) (l1 l2 : list A) a :
  List.find p l1 = Some a → List.find p (l1 ++ l2) = Some a.
Proof.
  induction l1 as [|b l1 IH]; [done|]. cbn [List.find app].
  destruct (p b); [done | exact IH].
Qed.




(** The statement succeeds exactly when a rowid is left and the array
    has bytes. *)
Lemma insert_or_replace_inr k data t t' :
  insert_or_replace k data t = inr t'
  ↔ last_rowid t < max_rowid ∧ data ≠ [] ∧ t' = inserted k data t.
Proof.
  unfold insert_or_replace.
  destruct (Z.ltb_spec (last_rowid t) max_rowid) as [Hlt|Hge]; cbn [negb].
  - destruct data as [|b data]; cbn [isEmpty].
    + split; [done | by intros (_ & ? & _)].
    + split; [intros [= <-]; done | by intros (_ & _ & ->)].
  - split; [done | intros (? & _); lia].
Qed.

Lemma insert_or_replace_inl k data t why :
  insert_or_replace k data t = inl why →
  (why = Full ∧ max_rowid ≤ last_rowid t)
  ∨ (why = NotNull ∧ last_rowid t < max_rowid ∧ data = []).
Proof.
  unfold insert_or_replace.
  destruct (Z.ltb_spec (last_rowid t) max_rowid) as [Hlt|Hge]; cbn [negb].
  - destruct data as [|b data]; cbn [isEmpty]; [|done].
    intros [= <-]. by right.
  - intros [= <-]. by left.
Qed.








Lemma select_insert_other k k' data t t' :
  insert_or_replace k data t = inr t' → k ≠ k' →
  select_tile_data k' t' = select_tile_data k' t.
Proof.
  intros (_ & _ & ->)%insert_or_replace_inr Hne.
  unfold select_tile_data, inserted. cbn [rows].
  destruct (List.find (has_key k') (rows t)) as [r|] eqn:Hf.
  - erewrite find_app_Some; [done|]. by rewrite find_filter_other.
  - rewrite find_app_None by (by rewrite find_filter_other).
    cbn [List.find]. unfold has_key, key_of_row. cbn.
    rewrite bool_decide_false; [done|]. destruct k. cbn. congruence.
Qed.

End Table.

(** ** Invariants of the reachable states *)

Section Invariants.
Context `{Collaborators}.

Lemma cached_stored_other k k' image d :
  k ≠ k' → cached k' (stored k image d) = cached k' d.
Proof.
  intros Hne. destruct d as [e|t]; [done|]. unfold stored. cbn [attempt].
  destruct (insert_or_replace k image t) as [why|t'] eqn:Hins; [done|].
  cbn [cached]. by rewrite (select_insert_other _ _ _ _ _ Hins).
Qed.

Lemma key_of_inj t t' p p' : key_of t p = key_of t' p' → t = t'.
Proof. destruct t, t'. unfold key_of. cbn. congruence. Qed.

Lemma isEmpty_true (b : QByteArray) : isEmpty b = true → b = [].
Proof. by destruct b. Qed.

Lemma entries_live_entry_ok s tilePos : entries_live s → entry_ok s tilePos.
Proof.
  intros Hl h Hm. destruct (Hl _ _ Hm) as (r & Hr & Hst & Hsl). eauto.
Qed.

Lemma removed_live tilePos s :
  (∀ t' h', t' ≠ tilePos → mRequest s !! t' = Some h' → fetching s t' h') →
  (∀ h r, mRequest s !! tilePos = Some h → replies s !! h = Some r →
          r_state r = Running → r_slot r = Some tilePos) →
  entries_live (removed tilePos s).
Proof.
  intros Hothers Hown t' h' Hm'. rewrite removed_mRequest in Hm'.
  apply lookup_delete_Some in Hm' as [Hne Hm'].
  destruct (Hothers t' h' (not_eq_sym Hne) Hm') as (r' & Hr' & Hst' & Hsl').
  exists r'. split; [|done].
  rewrite removed_replies_ne; [done|]. intros Hm.
  specialize (Hown _ _ Hm Hr' Hst'). congruence.
Qed.

Lemma removed_missed tilePos s :
  entries_missed s → entries_missed (removed tilePos s).
Proof.
  intros Hmiss t' h' Hm'. rewrite removed_mRequest in Hm'.
  apply lookup_delete_Some in Hm' as [Hne Hm'].
  unfold cache_miss. rewrite removed_mSqlDatabase. exact (Hmiss _ _ Hm').
Qed.

(** After the network has ended [reply], whose slot is for [tilePos], and
    whatever is then written into the reply, removing the entry of
    [tilePos] leaves only live entries. *)
Lemma ended_removed_live reply r r' tilePos s d evs :
  entries_live s →
  replies s !! reply = Some r → r_slot r = Some tilePos →
  r_state r' ≠ Running →
  entries_live
    (removed tilePos
       (mkState (mRequest s) d (<[reply := r']> (replies s)) evs)).
Proof.
  intros Hl Hr Hsl Hst'. apply removed_live; cbn [mRequest replies].
  - intros t' h' Hne Hm'. destruct (Hl _ _ Hm') as (r0 & Hr0 & Hst0 & Hsl0).
    exists r0. cbn [replies]. split; [|done].
    rewrite list_lookup_insert_ne; [done|]. intros ->. congruence.
  - intros h r0 Hm Hr0 Hst0.
    destruct (decide (h = reply)) as [->|Hne].
    + rewrite list_lookup_insert_eq in Hr0 by (by eapply lookup_lt_Some).
      congruence.
    + rewrite list_lookup_insert_ne in Hr0 by done.
      destruct (Hl _ _ Hm) as (r1 & Hr1 & _ & Hsl1). congruence.
Qed.

Lemma requested_live tilePos p s :
  entries_live s → entries_live (requested tilePos p s).
Proof.
  intros Hl. unfold requested.
  destruct (isEmpty _); cbn [negb]; [|exact Hl].
  intros t' h' Hm'. cbn [mRequest] in Hm'. unfold fetching. cbn [replies].
  destruct (decide (t' = tilePos)) as [->|Hne].
  - rewrite lookup_insert_eq in Hm'. injection Hm' as <-.
    eexists. split; [by apply list_lookup_middle|]. done.
  - rewrite lookup_insert_ne in Hm' by done.
    destruct (Hl _ _ Hm') as (r0 & Hr0 & Hrest). exists r0. split; [|done].
    by apply lookup_app_l_Some.
Qed.

Lemma requested_missed tilePos p s :
  (isEmpty (cached (key_of tilePos p) (mSqlDatabase s)) = true →
   getNetworkManager = true) →
  provider_of (tilePosToUrl tilePos) = Some p →
  entries_missed s → entries_missed (requested tilePos p s).
Proof.
  intros Hnm Hp Hmiss. unfold requested.
  destruct (isEmpty _) eqn:Hemp; cbn [negb]; [|exact Hmiss].
  intros t' h' Hm'. cbn [mRequest] in Hm'. unfold cache_miss. cbn [mSqlDatabase].
  destruct (decide (t' = tilePos)) as [->|Hne].
  - split; [by apply Hnm|]. exists p. split; [done|]. by apply isEmpty_true.
  - rewrite lookup_insert_ne in Hm' by done. exact (Hmiss _ _ Hm').
Qed.

Lemma completed_missed reply tilePos r p s :
  entries_missed s → entries_missed (completed reply tilePos r p s).
Proof.
  intros Hmiss t' h' Hm'. unfold completed in *. cbn [mRequest mSqlDatabase] in *.
  rewrite removed_mRequest in Hm'. cbn [mRequest] in Hm'.
  apply lookup_delete_Some in Hm' as [Hne Hm'].
  destruct (Hmiss _ _ Hm') as (Hnm & p' & Hp' & Hc). split; [done|].
  exists p'. split; [done|]. cbn [mSqlDatabase].
  rewrite removed_mSqlDatabase. cbn [mSqlDatabase].
  rewrite cached_stored_other; [done|].
  intros Hk. apply key_of_inj in Hk. congruence.
Qed.

Lemma invariant_new f : invariant (QGVLayerTilesOnline f).
Proof.
  split; intros t h Hm; destruct f; cbn [QGVLayerTilesOnline mRequest] in Hm;
    by rewrite lookup_empty in Hm.
Qed.

Lemma invariant_request tilePos s s' :
  invariant s → request tilePos s = Ok (tt, s') → invariant s'.
Proof.
  intros [Hl Hmiss] Hreq.
  destruct (request_Ok _ _ _ Hreq) as (p & Hp & -> & Hnm).
  split; [by apply requested_live | by apply requested_missed].
Qed.

Lemma invariant_cancel tilePos s s' :
  invariant s → cancel tilePos s = Ok (tt, s') → invariant s'.
Proof.
  intros [Hl Hmiss] Hc.
  rewrite cancel_eq in Hc by (by apply entries_live_entry_ok).
  injection Hc as <-. split; [|by apply removed_missed].
  apply removed_live.
  - intros t' h' _ Hm'. exact (Hl _ _ Hm').
  - intros h r Hm Hr _. destruct (Hl _ _ Hm) as (r0 & Hr0 & _ & Hsl0). congruence.
Qed.

Lemma entry_ok_ended reply o r tilePos s :
  entries_live s → replies s !! reply = Some r →
  entry_ok (ended reply o r s) tilePos.
Proof.
  intros Hl Hr. unfold ended. eapply entry_ok_update; [done| |].
  - by destruct o.
  - by apply entries_live_entry_ok.
Qed.

Lemma ended_lookup reply o r s :
  replies s !! reply = Some r →
  replies (ended reply o r s) !! reply = Some (finish o r).
Proof.
  intros Hr. unfold ended. cbn [replies].
  apply list_lookup_insert_eq. by eapply lookup_lt_Some.
Qed.

Lemma invariant_replyFinished reply o s s' :
  invariant s → sensible (ReplyFinished reply o) →
  replyFinished reply o s = Ok (tt, s') → invariant s'.
Proof.
  intros [Hl Hmiss] Hsens Hfin.
  destruct (replies s !! reply) as [r|] eqn:Hr;
    [|by rewrite replyFinished_dangling in Hfin].
  destruct (decide (r_state r = Running)) as [Hst|Hst];
    [|rewrite (replyFinished_done _ _ r) in Hfin by done;
      injection Hfin as <-; by split].
  destruct (r_slot r) as [tilePos|] eqn:Hsl.
  - rewrite (replyFinished_Running _ _ r tilePos) in Hfin by done.
    pose proof (entry_ok_ended reply o r tilePos s Hl Hr) as Hok.
    pose proof (ended_lookup reply o r s Hr) as Hr'.
    destruct o as [body|code msg].
    + rewrite (onReplyFinished_success _ _ _ _ Hr' eq_refl Hok) in Hfin.
      destruct (provider_of (r_url (finish (Received body) r))) as [p|]; [|done].
      injection Hfin as <-. split.
      * unfold completed, ended. cbn [mRequest mSqlDatabase replies trace].
        rewrite list_insert_insert_eq.
        eapply ended_removed_live; done.
      * apply completed_missed. exact Hmiss.
    + assert (code ≠ NoError) as Hcode by (by destruct code).
      rewrite (onReplyFinished_error _ _ _ _ Hr') in Hfin by done.
      injection Hfin as <-. split.
      * unfold failed, ended. cbn [mRequest mSqlDatabase replies trace].
        eapply ended_removed_live; done.
      * unfold failed. apply removed_missed. exact Hmiss.
  - rewrite (replyFinished_unconnected _ _ r) in Hfin by done.
    injection Hfin as <-. split; [|exact Hmiss].
    intros t' h' Hm'. cbn [ended mRequest] in Hm'.
    destruct (Hl _ _ Hm') as (r0 & Hr0 & Hst0 & Hsl0).
    exists r0. split; [|done]. unfold ended. cbn [replies].
    rewrite list_lookup_insert_ne; [done|]. intros ->. congruence.
Qed.

Lemma reachable_invariant s : reachable s → invariant s.
Proof.
  induction 1 as [f|s a s' Hreach IH Hsens Hstep]; [apply invariant_new|].
  destruct a as [t|t|h o]; cbn [perform] in Hstep.
  - by eapply invariant_request.
  - by eapply invariant_cancel.
  - by eapply invariant_replyFinished.
Qed.

End Invariants.

(** ** The coordinator *)

Section Claims.
Context `{Collaborators}.

Lemma events_since_app (s s' : State) evs :
  trace s' = trace s ++ evs → events_since s s' = evs.
Proof. intros E. unfold events_since. rewrite E. apply drop_app_length. Qed.

Lemma reachable_run acts s s' :
  reachable s → Forall sensible acts → run acts s = Ok (tt, s') → reachable s'.
Proof.
  intros Hs Hacts. revert s Hs.
  induction Hacts as [|a acts Ha Hacts IH]; intros s Hs Hrun; cbn [run] in Hrun.
  - by injection Hrun as <-.
  - destruct (perform a s) as [[[] s1]| |] eqn:Hstep; try done.
    eapply IH; [|done]. by eapply reachable_step.
Qed.

Lemma reachable_state_after f acts :
  Forall sensible acts → reachable (state_after f acts).
Proof.
  intros Hacts. unfold state_after.
  destruct (run acts (QGVLayerTilesOnline f)) as [[[] s]| |] eqn:Hrun;
    try apply reachable_new.
  eapply reachable_run; [apply reachable_new | done | done].
Qed.

Lemma requested_hit tilePos p s data :
  cached (key_of tilePos p) (mSqlDatabase s) = data → data ≠ [] →
  requested tilePos p s
  = mkState (mRequest s) (mSqlDatabase s) (replies s)
      (trace s ++ lookup_events (key_of tilePos p) (mSqlDatabase s)
         ++ [OnTile tilePos
               (tile_of tilePos data
                  (QUrl_toString (tilePosToUrl tilePos) +:+ " Cached Tile"))]).
Proof.
  intros Hc Hne. unfold requested. rewrite Hc. by destruct data.
Qed.

Lemma requested_miss tilePos p s :
  cached (key_of tilePos p) (mSqlDatabase s) = [] →
  requested tilePos p s
  = mkState (<[tilePos := length (replies s)]> (mRequest s)) (mSqlDatabase s)
      (replies s
         ++ [set_slot tilePos (new_reply (QUrl_toString (tilePosToUrl tilePos)))])
      (trace s ++ lookup_events (key_of tilePos p) (mSqlDatabase s)
         ++ [NetGet (QUrl_toString (tilePosToUrl tilePos)) (length (replies s));
             TableInsert tilePos (length (replies s));
             LogDebug "request" (QUrl_toString (tilePosToUrl tilePos))]).
Proof. intros Hc. unfold requested. by rewrite Hc. Qed.

Lemma lookup_events_quiet k d (p : Event → bool) :
  (∀ q ok, p (SqlExec q ok) = false) → (∀ tag text, p (LogDebug tag text) = false) →
  List.filter p (lookup_events k d) = [].
Proof.
  intros Hsql Hlog. destruct d as [e|t]; cbn [lookup_events List.filter].
  - by rewrite Hsql.
  - rewrite Hsql. destruct (select_tile_data k t); cbn [List.filter]; [|done].
    by rewrite Hlog.
Qed.

Lemma existsb_filter_nil {A} (p : A → bool) l :
  List.filter p l = [] → existsb p l = false.
Proof.
  induction l as [|a l IH]; [done|]. cbn [List.filter existsb].
  destruct (p a); [done|]. exact IH.
Qed.

(** C4. When the store holds non-empty bytes under the key of [tilePos],
    [request tilePos] returns after one [onTile] for [tilePos], carrying
    those bytes and the rectangle of the tile; it calls no
    [QNetworkAccessManager::get], creates no reply and leaves [mRequest]
    and the store as they were. *)
Theorem cache_hit_delivers_without_fetch
    (s : State) (tilePos : GeoTilePos) (p : string) (t : Tiles) (data : QByteArray) :
  getNetworkManager = true →
  provider_of (tilePosToUrl tilePos) = Some p →
  mSqlDatabase s = HasTiles t →
  select_tile_data (key_of tilePos p) t = Some data →
  data ≠ [] →
  ∃ s' tile,
    request tilePos s = Ok (tt, s')
    ∧ List.filter is_onTile (events_since s s') = [OnTile tilePos tile]
    ∧ image tile = data
    ∧ geometry tile = toGeoRect tilePos
    ∧ existsb is_get (events_since s s') = false
    ∧ replies s' = replies s
    ∧ mRequest s' = mRequest s
    ∧ mSqlDatabase s' = mSqlDatabase s.
Proof.
  intros Hnm Hp Hdb Hsel Hne.
  assert (Hc : cached (key_of tilePos p) (mSqlDatabase s) = data)
    by (rewrite Hdb; cbn [cached]; by rewrite Hsel).
  eexists _, _. split; [by apply request_eq|].
  rewrite (requested_hit _ _ _ data Hc Hne).
  erewrite events_since_app by reflexivity.
  rewrite List.filter_app, lookup_events_quiet by done.
  repeat split; try done.
  apply existsb_filter_nil.
  by rewrite List.filter_app, lookup_events_quiet.
Qed.

(** C7. In a reachable state, [cancel tilePos] on a tile with an entry
    takes the entry out of [mRequest] and aborts its reply, which ends up
    aborted with [OperationCanceledError]; nothing is delivered and the
    store is not touched.  On a tile without an entry it changes
    nothing at all. *)
Theorem cancel_aborts_or_does_nothing (s : State) (tilePos : GeoTilePos) :
  reachable s →
  match mRequest s !! tilePos with
  | Some reply =>
      ∃ s' r',
        cancel tilePos s = Ok (tt, s')
        ∧ mRequest s' = delete tilePos (mRequest s)
        ∧ events_since s s' = removal_events tilePos reply
        ∧ replies s' !! reply = Some r'
        ∧ r_state r' = Aborted
        ∧ r_error r' = OperationCanceledError
        ∧ (∀ other, other ≠ reply → replies s' !! other = replies s !! other)
        ∧ mSqlDatabase s' = mSqlDatabase s
  | None => cancel tilePos s = Ok (tt, s)
  end.
Proof.
  intros Hreach. destruct (reachable_invariant s Hreach) as [Hl _].
  rewrite cancel_eq by (by apply entries_live_entry_ok).
  unfold removed.
  destruct (mRequest s !! tilePos) as [reply|] eqn:Hm; [|done].
  destruct (Hl _ _ Hm) as (r & Hr & Hst & Hsl). rewrite Hr.
  assert (Hlt : (reply < length (replies s))%nat) by (by eapply lookup_lt_Some).
  eexists _, _. split; [reflexivity|]. cbn [mRequest mSqlDatabase replies].
  split; [done|]. split; [by apply events_since_app|].
  split; [by apply list_lookup_insert_eq|].
  unfold torn_down. rewrite Hst. cbn.
  repeat split; try done.
  intros other Hne. by apply list_lookup_insert_ne.
Qed.



Lemma completed_trace reply tilePos r p s :
  trace (completed reply tilePos r p s)
  = trace s ++ removal_trace tilePos s
      ++ OnTile tilePos (tile_of tilePos (r_data r) (r_url r))
      :: store_events (key_of tilePos p) (r_data r) (mSqlDatabase s).
Proof.
  unfold completed. cbn [trace mSqlDatabase].
  rewrite removed_trace, removed_mSqlDatabase. cbn [trace mSqlDatabase].
  by rewrite <- app_assoc.
Qed.

Lemma completed_mRequest reply tilePos r p s :
  mRequest (completed reply tilePos r p s) = delete tilePos (mRequest s).
Proof. unfold completed. cbn [mRequest]. by rewrite removed_mRequest. Qed.

Lemma completed_mSqlDatabase reply tilePos r p s :
  mSqlDatabase (completed reply tilePos r p s)
  = stored (key_of tilePos p) (r_data r) (mSqlDatabase s).
Proof. unfold completed. cbn [mSqlDatabase]. by rewrite removed_mSqlDatabase. Qed.

Lemma failed_trace tilePos r s :
  trace (failed tilePos r s)
  = trace s ++ failure_log r ++ removal_trace tilePos s.
Proof. unfold failed. rewrite removed_trace. cbn [trace]. by rewrite <- app_assoc. Qed.

Lemma failed_mRequest tilePos r s :
  mRequest (failed tilePos r s) = delete tilePos (mRequest s).
Proof. unfold failed. by rewrite removed_mRequest. Qed.

Lemma failed_mSqlDatabase tilePos r s :
  mSqlDatabase (failed tilePos r s) = mSqlDatabase s.
Proof. unfold failed. by rewrite removed_mSqlDatabase. Qed.

Lemma removal_trace_quiet tilePos s (p : Event → bool) :
  (∀ t, p (TableRemove t) = false) → (∀ h, p (ReplyAbort h) = false) →
  (∀ h, p (ReplyClose h) = false) → (∀ h, p (ReplyDeleteLater h) = false) →
  List.filter p (removal_trace tilePos s) = [].
Proof.
  intros H1 H2 H3 H4. unfold removal_trace, removal_events.
  destruct (mRequest s !! tilePos); cbn [List.filter]; [|done].
  by rewrite H1, H2, H3, H4.
Qed.

Lemma store_events_quiet k image d (p : Event → bool) :
  (∀ q ok, p (SqlExec q ok) = false) →
  (∀ text, p (LogCritical text) = false) →
  (∀ tag text, p (LogDebug tag text) = false) →
  List.filter p (store_events k image d) = [].
Proof.
  intros H1 H2 H3. unfold store_events.
  destruct (attempt k image d); cbn [List.filter]; by rewrite ?H1, ?H2, ?H3.
Qed.

Lemma entries_live_inj s t1 t2 reply :
  entries_live s → mRequest s !! t1 = Some reply →
  mRequest s !! t2 = Some reply → t1 = t2.
Proof.
  intros Hl H1 H2.
  destruct (Hl _ _ H1) as (r1 & Hr1 & _ & Hs1).
  destruct (Hl _ _ H2) as (r2 & Hr2 & _ & Hs2). congruence.
Qed.

(** C1. In a reachable state in which [tilePos] has an entry,
    [request tilePos] calls [get] once more, puts the new reply in the
    place of the old one, and aborts nothing: the old reply is still
    running and connected, and no entry of [mRequest] points to it any
    more. *)
Theorem second_request_overwrites_entry
    (s : State) (tilePos : GeoTilePos) (reply : handle) :
  reachable s →
  mRequest s !! tilePos = Some reply →
  cache_miss s tilePos
  ∧ ∃ s',
    request tilePos s = Ok (tt, s')
    ∧ length (replies s) ≠ reply
    ∧ mRequest s' = <[tilePos := length (replies s)]> (mRequest s)
    ∧ replies s'
      = replies s
        ++ [set_slot tilePos (new_reply (QUrl_toString (tilePosToUrl tilePos)))]
    ∧ List.filter is_get (events_since s s')
      = [NetGet (QUrl_toString (tilePosToUrl tilePos)) (length (replies s))]
    ∧ existsb is_abort (events_since s s') = false
    ∧ fetching s' tilePos reply
    ∧ ∀ t, mRequest s' !! t ≠ Some reply.
Proof.
  intros Hreach Hm. destruct (reachable_invariant s Hreach) as [Hl Hmiss].
  destruct (Hmiss _ _ Hm) as (Hnm & p & Hp & Hc).
  destruct (Hl _ _ Hm) as (r & Hr & Hst & Hsl).
  assert (Hlt : (reply < length (replies s))%nat) by (by eapply lookup_lt_Some).
  split; [by exists p|].
  eexists. split; [by apply (request_eq _ p)|].
  rewrite (requested_miss _ _ _ Hc). cbn [mRequest replies].
  erewrite events_since_app by reflexivity.
  split; [lia|]. split; [done|]. split; [done|].
  split; [by rewrite List.filter_app, lookup_events_quiet|].
  split.
  { apply existsb_filter_nil. by rewrite List.filter_app, lookup_events_quiet. }
  split.
  { exists r. cbn [replies]. split; [by apply lookup_app_l_Some | done]. }
  intros t Ht. destruct (decide (t = tilePos)) as [->|Hne].
  - rewrite lookup_insert_eq in Ht. injection Ht as Ht. lia.
  - rewrite lookup_insert_ne in Ht by done.
    apply Hne. by eapply entries_live_inj.
Qed.

(** C3. From any state in which the lookup for [tilePos] misses,
    [request tilePos] registers a new reply; if that reply then finishes
    without error, [onTile] has been called exactly once since the
    request, for [tilePos], with the received bytes and the rectangle of
    the tile; if it finishes with an error, [onTile] has not been called
    at all. *)
Theorem one_delivery_on_success_none_on_failure
    (s : State) (tilePos : GeoTilePos) (p' : string) :
  getNetworkManager = true →
  cache_miss s tilePos →
  provider_of (QUrl_toString (tilePosToUrl tilePos)) = Some p' →
  ∃ s1,
    request tilePos s = Ok (tt, s1)
    ∧ mRequest s1 !! tilePos = Some (length (replies s))
    ∧ (∀ body, ∃ s2 tile,
         replyFinished (length (replies s)) (Received body) s1 = Ok (tt, s2)
         ∧ List.filter is_onTile (events_since s s2) = [OnTile tilePos tile]
         ∧ geometry tile = toGeoRect tilePos
         ∧ image tile = body)
    ∧ (∀ code msg, code ≠ NoError → ∃ s2,
         replyFinished (length (replies s)) (Failed code msg) s1 = Ok (tt, s2)
         ∧ List.filter is_onTile (events_since s s2) = []).
Proof.
  intros Hnm (p & Hp & Hc) Hp'.
  eexists. split; [by apply (request_eq _ p)|].
  rewrite (requested_miss _ _ _ Hc).
  set (url := QUrl_toString (tilePosToUrl tilePos)) in *.
  set (h := length (replies s)).
  set (r := set_slot tilePos (new_reply url)).
  match goal with |- context [replyFinished _ _ ?x] => set (s1 := x) end.
  assert (Hr : replies s1 !! h = Some r) by (by apply list_lookup_middle).
  assert (Hm : mRequest s1 !! tilePos = Some h) by apply lookup_insert_eq.
  assert (Hok : ∀ o, entry_ok (ended h o r s1) tilePos).
  { intros o h0 Hm0. cbn [ended mRequest] in Hm0.
    rewrite Hm in Hm0. injection Hm0 as <-.
    exists (finish o r). split; [by apply ended_lookup|]. by destruct o. }
  split; [done|]. split.
  - intros body. rewrite (replyFinished_Running _ _ r tilePos) by done.
    rewrite (onReplyFinished_success _ _ _ _
               (ended_lookup h (Received body) r s1 Hr) eq_refl (Hok _)).
    cbn [finish set_state set_error set_data r_url r new_reply set_slot].
    fold url. rewrite Hp'. eexists _, _. split; [reflexivity|].
    erewrite events_since_app
      by (rewrite completed_trace; cbn [trace ended s1];
          rewrite <- !app_assoc; reflexivity).
    rewrite !List.filter_app. cbn [List.filter is_onTile].
    rewrite lookup_events_quiet, removal_trace_quiet, store_events_quiet by done.
    done.
  - intros code msg Hcode. rewrite (replyFinished_Running _ _ r tilePos) by done.
    rewrite (onReplyFinished_error _ _ _ _
               (ended_lookup h (Failed code msg) r s1 Hr)) by done.
    eexists. split; [reflexivity|].
    erewrite events_since_app
      by (rewrite failed_trace; cbn [trace ended s1];
          rewrite <- !app_assoc; reflexivity).
    rewrite !List.filter_app. cbn [List.filter is_onTile].
    rewrite lookup_events_quiet, removal_trace_quiet by done.
    unfold failure_log. by destruct (bool_decide _).
Qed.

(** What [replyFinished] amounts to for a running, connected reply of a
    reachable state. *)
Lemma replyFinished_received reply r tilePos p body s :
  entries_live s →
  replies s !! reply = Some r → r_state r = Running →
  r_slot r = Some tilePos → provider_of (r_url r) = Some p →
  replyFinished reply (Received body) s
  = Ok (tt, completed reply tilePos (finish (Received body) r) p
              (ended reply (Received body) r s)).
Proof.
  intros Hl Hr Hst Hsl Hp.
  rewrite (replyFinished_Running _ _ r tilePos) by done.
  rewrite (onReplyFinished_success _ _ _ _
             (ended_lookup reply (Received body) r s Hr) eq_refl
             (entry_ok_ended _ _ _ _ _ Hl Hr)).
  cbn [finish set_state set_error set_data r_url]. by rewrite Hp.
Qed.

Lemma replyFinished_failed reply r tilePos code msg s :
  entries_live s →
  replies s !! reply = Some r → r_state r = Running →
  r_slot r = Some tilePos → code ≠ NoError →
  replyFinished reply (Failed code msg) s
  = Ok (tt, failed tilePos (finish (Failed code msg) r)
              (ended reply (Failed code msg) r s)).
Proof.
  intros Hl Hr Hst Hsl Hcode.
  rewrite (replyFinished_Running _ _ r tilePos) by done.
  by rewrite (onReplyFinished_error _ _ _ _
                (ended_lookup reply (Failed code msg) r s Hr) Hcode
                (entry_ok_ended _ _ _ _ _ Hl Hr)).
Qed.

(** How a store ends, by the database, the rowids and the bytes. *)
Lemma attempt_inr k image d t' :
  attempt k image d = inr t'
  ↔ ∃ t, d = HasTiles t ∧ last_rowid t < max_rowid ∧ image ≠ []
         ∧ t' = inserted k image t.
Proof.
  destruct d as [why|t]; cbn [attempt].
  - split; [done | by intros (t & ? & _)].
  - rewrite insert_or_replace_inr. split.
    + intros (Hlt & Hne & ->). by exists t.
    + intros (t0 & [= <-] & Hlt & Hne & ->). done.
Qed.


(** C6. When a running reply of a reachable state finishes with an error,
    the entry of its tile is taken out of [mRequest], no tile is
    delivered and the store is neither written nor changed; the error
    text is logged, once, unless the error is [OperationCanceledError],
    in which case nothing is logged. *)
Theorem failed_completion_removes_without_delivery
    (s : State) (reply : handle) (r : Reply) (tilePos : GeoTilePos)
    (code : NetworkError) (msg : string) :
  reachable s →
  replies s !! reply = Some r → r_state r = Running →
  r_slot r = Some tilePos → code ≠ NoError →
  ∃ s',
    replyFinished reply (Failed code msg) s = Ok (tt, s')
    ∧ mRequest s' !! tilePos = None
    ∧ mRequest s' = delete tilePos (mRequest s)
    ∧ mSqlDatabase s' = mSqlDatabase s
    ∧ List.filter is_onTile (events_since s s') = []
    ∧ List.filter is_cache_write (events_since s s') = []
    ∧ List.filter is_log (events_since s s')
      = match code with
        | OperationCanceledError => []
        | _ => [LogCritical msg]
        end.
Proof.
  intros Hreach Hr Hst Hsl Hcode.
  destruct (reachable_invariant s Hreach) as [Hl _].
  eexists. split; [by eapply replyFinished_failed|].
  rewrite failed_mRequest, failed_mSqlDatabase.
  erewrite events_since_app by (rewrite failed_trace; reflexivity).
  cbn [ended mRequest mSqlDatabase].
  split; [apply lookup_delete_eq|]. split; [done|]. split; [done|].
  rewrite !List.filter_app, !removal_trace_quiet by done.
  unfold failure_log.
  cbn [finish r_error r_errorString set_state set_error].
  destruct code as [| |c]; [done| |].
  - by rewrite bool_decide_false by (intros ?; done).
  - by rewrite bool_decide_true by done.
Qed.

Lemma requested_mRequest tilePos p s :
  mRequest (requested tilePos p s)
  = if isEmpty (cached (key_of tilePos p) (mSqlDatabase s))
    then <[tilePos := length (replies s)]> (mRequest s)
    else mRequest s.
Proof. unfold requested. by destruct (isEmpty _). Qed.

Lemma replyFinished_mRequest reply o s s' :
  entries_live s → sensible (ReplyFinished reply o) →
  replyFinished reply o s = Ok (tt, s') →
  ∃ r, replies s !! reply = Some r
       ∧ ((r_state r = Running
           ∧ ∃ t, r_slot r = Some t ∧ mRequest s' = delete t (mRequest s))
          ∨ ((r_state r ≠ Running ∨ r_slot r = None)
             ∧ mRequest s' = mRequest s)).
Proof.
  intros Hl Hsens Hfin.
  destruct (replies s !! reply) as [r|] eqn:Hr;
    [|by rewrite replyFinished_dangling in Hfin].
  exists r. split; [done|].
  destruct (decide (r_state r = Running)) as [Hst|Hst].
  2:{ rewrite (replyFinished_done _ _ r) in Hfin by done.
      injection Hfin as <-. right. auto. }
  destruct (r_slot r) as [t|] eqn:Hsl.
  2:{ rewrite (replyFinished_unconnected _ _ r) in Hfin by done.
      injection Hfin as <-. right. auto. }
  left. split; [done|]. exists t. split; [done|].
  destruct o as [body|code msg].
  - destruct (provider_of (r_url r)) as [p|] eqn:Hp.
    + rewrite (replyFinished_received _ r t p) in Hfin by done.
      injection Hfin as <-. by rewrite completed_mRequest.
    + rewrite (replyFinished_Running _ _ r t) in Hfin by done.
      rewrite (onReplyFinished_success _ _ _ _
                 (ended_lookup reply (Received body) r s Hr) eq_refl
                 (entry_ok_ended _ _ _ _ _ Hl Hr)) in Hfin.
      cbn [finish set_state set_error set_data r_url] in Hfin.
      by rewrite Hp in Hfin.
  - assert (code ≠ NoError) as Hcode by (by destruct code).
    rewrite (replyFinished_failed _ r t) in Hfin by done.
    injection Hfin as <-. by rewrite failed_mRequest.
Qed.

(** C2. In every reachable state each entry of [mRequest] points to a
    running reply connected for the entry's own tile, so a tile with no
    running fetch has no entry.  A step puts a new reply into the table
    exactly when it is a request that misses the cache; it changes no
    entry otherwise except to take it out; and it takes the entry of a
    tile out when that entry's reply finishes, with or without error, and
    when the tile is cancelled. *)
Theorem in_flight_table_invariant (s : State) :
  reachable s →
  (∀ tilePos reply, mRequest s !! tilePos = Some reply →
     fetching s tilePos reply)
  ∧ ∀ a s', sensible a → perform a s = Ok (tt, s') →
      ∀ tilePos,
        (mRequest s' !! tilePos = Some (length (replies s))
         ↔ a = Request tilePos ∧ cache_miss s tilePos)
        ∧ (∀ reply, mRequest s' !! tilePos = Some reply →
             reply = length (replies s) ∨ mRequest s !! tilePos = Some reply)
        ∧ (∀ reply o, a = ReplyFinished reply o →
             mRequest s !! tilePos = Some reply → mRequest s' !! tilePos = None)
        ∧ (a = Cancel tilePos → mRequest s' !! tilePos = None).
Proof.
  intros Hreach. destruct (reachable_invariant s Hreach) as [Hl Hmiss].
  split; [exact Hl|]. intros a s' Hsens Hstep tilePos.
  assert (Hold : ∀ t, mRequest s !! t ≠ Some (length (replies s))).
  { intros t Hm. destruct (Hl _ _ Hm) as (r & Hr & _).
    apply lookup_lt_Some in Hr. lia. }
  assert (Hsub : ∀ t0 reply,
             delete t0 (mRequest s) !! tilePos = Some reply →
             mRequest s !! tilePos = Some reply).
  { intros t0 reply Hm. by apply lookup_delete_Some in Hm as [_ Hm]. }
  destruct a as [t0|t0|h o]; cbn [perform] in Hstep.
  - apply request_Ok in Hstep as (p & Hp & -> & _).
    rewrite requested_mRequest.
    destruct (isEmpty (cached (key_of t0 p) (mSqlDatabase s))) eqn:Hemp.
    + apply isEmpty_true in Hemp.
      refine (conj (conj _ _) (conj _ (conj _ _))).
      * intros Hm. destruct (decide (tilePos = t0)) as [->|Hne].
        -- split; [done|]. by exists p.
        -- rewrite lookup_insert_ne in Hm by done. by apply Hold in Hm.
      * intros [[= ->] _]. apply lookup_insert_eq.
      * intros reply Hm. destruct (decide (tilePos = t0)) as [->|Hne].
        -- rewrite lookup_insert_eq in Hm. injection Hm as <-. by left.
        -- rewrite lookup_insert_ne in Hm by done. by right.
      * intros reply o Heq. discriminate Heq.
      * intros Heq. discriminate Heq.
    + refine (conj (conj _ _) (conj _ (conj _ _))).
      * intros Hm. by apply Hold in Hm.
      * intros [[= ->] (p' & Hp' & Hc)].
        rewrite Hp in Hp'. injection Hp' as <-. by rewrite Hc in Hemp.
      * intros reply Hm. by right.
      * intros reply o Heq. discriminate Heq.
      * intros Heq. discriminate Heq.
  - rewrite cancel_eq in Hstep by (by apply entries_live_entry_ok).
    injection Hstep as <-. rewrite removed_mRequest.
    refine (conj (conj _ _) (conj _ (conj _ _))).
    + intros Hm. apply Hsub in Hm. by apply Hold in Hm.
    + intros [Heq _]. discriminate Heq.
    + intros reply Hm. right. by eapply Hsub.
    + intros reply o Heq. discriminate Heq.
    + intros [= ->]. apply lookup_delete_eq.
  - destruct (replyFinished_mRequest _ _ _ _ Hl Hsens Hstep)
      as (r & Hr & [(Hst & t & Hsl & ->)|(Hnot & ->)]).
    + refine (conj (conj _ _) (conj _ (conj _ _))).
      * intros Hm. apply Hsub in Hm. by apply Hold in Hm.
      * intros [Heq _]. discriminate Heq.
      * intros reply Hm. right. by eapply Hsub.
      * intros reply o' [= -> ->] Hm.
        destruct (Hl _ _ Hm) as (r' & Hr' & _ & Hsl').
        assert (t = tilePos) as -> by congruence. apply lookup_delete_eq.
      * intros Heq. discriminate Heq.
    + refine (conj (conj _ _) (conj _ (conj _ _))).
      * intros Hm. by apply Hold in Hm.
      * intros [Heq _]. discriminate Heq.
      * intros reply Hm. by right.
      * intros reply o' [= -> ->] Hm.
        destruct (Hl _ _ Hm) as (r' & Hr' & Hst' & Hsl').
        rewrite Hr in Hr'. injection Hr' as <-.
        destruct Hnot as [Hnot|Hnot]; congruence.
      * intros Heq. discriminate Heq.
Qed.

Lemma requests_hollow tilePos p n :
  getNetworkManager = true →
  provider_of (tilePosToUrl tilePos) = Some p →
  ∀ s, cached (key_of tilePos p) (mSqlDatabase s) = [] →
    ∃ s' evs,
      requests n tilePos s = Ok (tt, s')
      ∧ trace s' = trace s ++ evs
      ∧ mSqlDatabase s' = mSqlDatabase s
      ∧ length (replies s') = (length (replies s) + n)%nat
      ∧ length (List.filter is_get evs) = n
      ∧ List.filter is_onTile evs = [].
Proof.
  intros Hnm Hp. induction n as [|n IH]; intros s Hc.
  - exists s, []. cbn [requests]. unfold ret.
    rewrite app_nil_r, Nat.add_0_r. done.
  - cbn [requests]. rewrite (bind_Ok _ _ _ _ _ (request_eq _ p s Hnm Hp)).
    rewrite (requested_miss _ _ _ Hc).
    match goal with |- context [requests n tilePos ?x] => set (s1 := x) end.
    destruct (IH s1 Hc) as (s' & evs & Hrun & Htr & Hdb & Hlen & Hget & Hon).
    eexists s', _. split; [exact Hrun|].
    split; [rewrite Htr; cbn [trace s1]; rewrite <- !app_assoc; reflexivity|].
    split; [done|].
    split; [rewrite Hlen; cbn [replies s1]; rewrite length_app; cbn; lia|].
    rewrite !List.filter_app, !lookup_events_quiet by done.
    cbn [List.filter is_get is_onTile app length]. by rewrite Hget, Hon.
Qed.

(** C10. When the row stored under the key of [tilePos] holds no bytes,
    [findCachedTile] returns the empty array, as it does when there is no
    row, and [request tilePos] issues a fetch and registers it, exactly as
    from the state whose store has no such row; the store is left as it
    is, so that however many requests follow one another, each issues a
    fetch and none delivers a tile. *)
Theorem empty_cache_entry_is_a_miss
    (s : State) (tilePos : GeoTilePos) (p : string) (t : Tiles) :
  getNetworkManager = true →
  provider_of (tilePosToUrl tilePos) = Some p →
  mSqlDatabase s = HasTiles t →
  select_tile_data (key_of tilePos p) t = Some [] →
  (∃ s0, findCachedTile tilePos (tilePosToUrl tilePos) s = Ok ([], s0))
  ∧ (∃ s',
       request tilePos s = Ok (tt, s')
       ∧ mRequest s' !! tilePos = Some (length (replies s))
       ∧ List.filter is_get (events_since s s')
         = [NetGet (QUrl_toString (tilePosToUrl tilePos)) (length (replies s))]
       ∧ ∀ t0 evs, select_tile_data (key_of tilePos p) t0 = None →
           ∃ s0',
             request tilePos
               (mkState (mRequest s) (HasTiles t0) (replies s) evs)
             = Ok (tt, s0')
             ∧ mRequest s0' = mRequest s'
             ∧ replies s0' = replies s')
  ∧ ∀ n, ∃ s',
      requests n tilePos s = Ok (tt, s')
      ∧ mSqlDatabase s' = mSqlDatabase s
      ∧ length (replies s') = (length (replies s) + n)%nat
      ∧ length (List.filter is_get (events_since s s')) = n
      ∧ List.filter is_onTile (events_since s s') = [].
Proof.
  intros Hnm Hp Hdb Hsel.
  assert (Hc : cached (key_of tilePos p) (mSqlDatabase s) = [])
    by (rewrite Hdb; cbn [cached]; by rewrite Hsel).
  split; [|split].
  - rewrite (findCachedTile_eq _ _ p) by done. rewrite Hc. eauto.
  - eexists. split; [by apply (request_eq _ p)|].
    rewrite (requested_miss _ _ _ Hc). cbn [mRequest replies].
    erewrite events_since_app by reflexivity.
    split; [apply lookup_insert_eq|].
    split; [by rewrite List.filter_app, lookup_events_quiet|].
    intros t0 evs Hnone. eexists. split; [by apply (request_eq _ p)|].
    rewrite requested_miss by (cbn [mSqlDatabase cached]; by rewrite Hnone).
    done.
  - intros n.
    destruct (requests_hollow tilePos p n Hnm Hp s Hc)
      as (s' & evs & Hrun & Htr & Hdb' & Hlen & Hget & Hon).
    exists s'. rewrite (events_since_app _ _ _ Htr). done.
Qed.

End Claims.

(** ** Steps *)

Section Steps.
Context `{Collaborators}.

(** The state a step ends in, by the action. *)
Lemma step_cases s a s' :
  entries_live s → sensible a → perform a s = Ok (tt, s') →
  match a with
  | Request tilePos =>
      ∃ p, provider_of (tilePosToUrl tilePos) = Some p
           ∧ s' = requested tilePos p s
  | Cancel tilePos => s' = removed tilePos s
  | ReplyFinished reply o =>
      ∃ r, replies s !! reply = Some r
           ∧ ((r_state r ≠ Running ∧ s' = s)
              ∨ (r_state r = Running ∧ r_slot r = None
                 ∧ s' = ended reply o r s)
              ∨ (r_state r = Running
                 ∧ ∃ tilePos, r_slot r = Some tilePos
                     ∧ match o with
                       | Received body =>
                           ∃ p, provider_of (r_url r) = Some p
                                ∧ s' = completed reply tilePos (finish o r) p
                                         (ended reply o r s)
                       | Failed code msg =>
                           s' = failed tilePos (finish o r) (ended reply o r s)
                       end))
  end.
Proof.
  intros Hl Hsens Hstep. destruct a as [t|t|h o]; cbn [perform] in Hstep.
  - apply request_Ok in Hstep as (p & Hp & -> & _). by exists p.
  - rewrite cancel_eq in Hstep by (by apply entries_live_entry_ok).
    by injection Hstep as <-.
  - destruct (replies s !! h) as [r|] eqn:Hr;
      [|by rewrite replyFinished_dangling in Hstep].
    exists r. split; [done|].
    destruct (decide (r_state r = Running)) as [Hst|Hst].
    2:{ rewrite (replyFinished_done _ _ r) in Hstep by done.
        injection Hstep as <-. by left. }
    right. destruct (r_slot r) as [t|] eqn:Hsl.
    2:{ rewrite (replyFinished_unconnected _ _ r) in Hstep by done.
        injection Hstep as <-. by left. }
    right. split; [done|]. exists t. split; [done|].
    destruct o as [body|code msg].
    + destruct (provider_of (r_url r)) as [p|] eqn:Hp.
      * rewrite (replyFinished_received _ r t p) in Hstep by done.
        injection Hstep as <-. by exists p.
      * rewrite (replyFinished_Running _ _ r t) in Hstep by done.
        rewrite (onReplyFinished_success _ _ _ _
                   (ended_lookup h (Received body) r s Hr) eq_refl
                   (entry_ok_ended _ _ _ _ _ Hl Hr)) in Hstep.
        cbn [finish set_state set_error set_data r_url] in Hstep.
        by rewrite Hp in Hstep.
    + assert (code ≠ NoError) as Hcode by (by destruct code).
      rewrite (replyFinished_failed _ r t) in Hstep by done.
      by injection Hstep as <-.
Qed.

(** A property kept by every step from a state with live entries is kept
    by every run. *)
Lemma run_keeps (P : State → Prop) :
  (∀ s a s', invariant s → P s → sensible a →
             perform a s = Ok (tt, s') → P s') →
  ∀ acts s s', invariant s → P s → Forall sensible acts →
               run acts s = Ok (tt, s') → P s'.
Proof.
  intros Hstep acts. induction acts as [|a acts IH];
    intros s s' Hinv HP Hacts Hrun; cbn [run] in Hrun.
  - by injection Hrun as <-.
  - inversion Hacts as [|? ? Ha Hacts']; subst.
    destruct (perform a s) as [[[] s1]| |] eqn:Hp; try done.
    apply (IH s1 s'); try done.
    + destruct Hinv as [Hl Hm]. destruct a; cbn [perform] in Hp.
      * by eapply invariant_request.
      * by eapply invariant_cancel.
      * by eapply invariant_replyFinished.
    + by eapply Hstep.
Qed.

Lemma reachable_keeps (P : State → Prop) :
  (∀ f, P (QGVLayerTilesOnline f)) →
  (∀ s a s', invariant s → P s → sensible a →
             perform a s = Ok (tt, s') → P s') →
  ∀ s, reachable s → P s.
Proof.
  intros Hnew Hstep s Hreach.
  induction Hreach as [f|s a s' Hreach IH Hsens Hp]; [apply Hnew|].
  eapply Hstep; [by apply reachable_invariant | done | done | done].
Qed.

End Steps.

(** ** Faults *)

Section Faults.
Context `{Collaborators}.

Lemma length_split sep s : length (split sep s) = S (occurrences sep s).
Proof.
  induction s as [|c s IH]; [done|]. cbn [split occurrences].
  destruct (Ascii.eqb c sep); cbn [length]; [by rewrite IH|].
  pose proof (split_not_nil sep s) as Hne.
  destruct (split sep s) as [|tok toks]; [done|]. exact IH.
Qed.

Lemma provider_of_None url :
  provider_of url = None ↔ (occurrences "/" url < 2)%nat.
Proof.
  unfold provider_of. rewrite nth_error_None, length_split. lia.
Qed.

(** X1. [findCachedTile] and [cacheTile] fault, before they touch the
    store, exactly on a URL with fewer than two slashes.  [request] faults
    exactly when the URL of the tile is such a URL, or no network manager
    is installed and either the assertion is compiled in or the lookup
    misses, so that the fetch would go through the missing manager; with
    the assertion compiled out, no manager and a hit, [request] returns
    after delivering the cached tile. *)
Theorem faults_on_urls_without_two_slashes
    (tilePos : GeoTilePos) (url : string) (image : QByteArray) (s : State) :
  (findCachedTile tilePos url s = Crash ↔ (occurrences "/" url < 2)%nat)
  ∧ (cacheTile image tilePos url s = Crash ↔ (occurrences "/" url < 2)%nat)
  ∧ (request tilePos s = Crash
     ↔ (occurrences "/" (tilePosToUrl tilePos) < 2)%nat
       ∨ (getNetworkManager = false
          ∧ (QT_NO_DEBUG = false ∨ cache_miss s tilePos)))
  ∧ (QT_NO_DEBUG = true → getNetworkManager = false →
     ∀ p, provider_of (tilePosToUrl tilePos) = Some p →
       cached (key_of tilePos p) (mSqlDatabase s) ≠ [] →
       ∃ s', request tilePos s = Ok (tt, s')
             ∧ mRequest s' = mRequest s
             ∧ List.filter is_onTile (events_since s s')
               = [OnTile tilePos
                    (tile_of tilePos
                       (cached (key_of tilePos p) (mSqlDatabase s))
                       (QUrl_toString (tilePosToUrl tilePos)
                          +:+ " Cached Tile"))]
             ∧ List.filter is_get (events_since s s') = []).
Proof.
  rewrite <- !provider_of_None. split; [|split; [|split]].
  - split; [|apply findCachedTile_crash].
    destruct (provider_of url) as [p|] eqn:Hp; [|done].
    by rewrite (findCachedTile_eq _ _ p).
  - split; [|apply cacheTile_crash].
    destruct (provider_of url) as [p|] eqn:Hp; [|done].
    by rewrite (cacheTile_eq _ _ _ p).
  - destruct getNetworkManager eqn:Hnm.
    + destruct (provider_of (tilePosToUrl tilePos)) as [p|] eqn:Hp.
      * rewrite (request_eq _ p) by done.
        split; [done | by intros [?|[? _]]].
      * rewrite request_crash by done. split; [by left | done].
    + rewrite request_unmanaged by done. unfold cache_miss.
      destruct QT_NO_DEBUG; [|split; [right; auto | done]].
      destruct (provider_of (tilePosToUrl tilePos)) as [p|] eqn:Hp;
        [|split; [by left | done]].
      destruct (isEmpty (cached (key_of tilePos p) (mSqlDatabase s)))
        eqn:Hemp.
      * apply isEmpty_true in Hemp. split; [|done].
        intros _. right. split; [done|]. right. by exists p.
      * split; [done|]. intros [?|[_ [?|(p' & [= <-] & Hc)]]]; try done.
        by rewrite Hc in Hemp.
  - intros Hrel Hnm p Hp Hc. rewrite request_unmanaged by done.
    rewrite Hrel, Hp.
    assert (isEmpty (cached (key_of tilePos p) (mSqlDatabase s)) = false)
      as Hemp by (by destruct (cached _ _)).
    rewrite Hemp. eexists. split; [reflexivity|].
    split; [by rewrite requested_mRequest, Hemp|].
    erewrite events_since_app
      by (rewrite (requested_hit _ _ _ _ eq_refl Hc); reflexivity).
    rewrite !List.filter_app, !lookup_events_quiet by done. done.
Qed.

End Faults.

(** ** Deliveries and writes *)

Section Deliveries.
Context `{Collaborators}.

Lemma lookup_events_ok k d : Forall delivery_ok (lookup_events k d).
Proof.
  destruct d as [e|t]; cbn [lookup_events]; [by repeat constructor|].
  destruct (select_tile_data k t); by repeat constructor.
Qed.

Lemma removal_trace_ok tilePos s : Forall delivery_ok (removal_trace tilePos s).
Proof.
  unfold removal_trace, removal_events.
  destruct (mRequest s !! tilePos); by repeat constructor.
Qed.

Lemma store_events_ok k image d : Forall delivery_ok (store_events k image d).
Proof.
  unfold store_events. destruct (attempt k image d); by repeat constructor.
Qed.

Lemma failure_log_ok r : Forall delivery_ok (failure_log r).
Proof. unfold failure_log. destruct (bool_decide _); by repeat constructor. Qed.

Lemma requested_trace_ok tilePos p s :
  Forall delivery_ok (trace s) → Forall delivery_ok (trace (requested tilePos p s)).
Proof.
  intros Hs. unfold requested.
  destruct (isEmpty _); cbn [negb trace];
    rewrite !Forall_app; (split; [done|]); (split; [apply lookup_events_ok|]);
    by repeat constructor.
Qed.

(** X2. Whatever the layer has delivered since it was made, from the
    store or from the network, each tile handed to [onTile] has the
    rectangle of the tile position it is handed over with. *)
Theorem every_delivery_has_its_rectangle (s : State) :
  reachable s → Forall delivery_ok (trace s).
Proof.
  revert s. apply reachable_keeps.
  - intros [e|e existing|existing]; by repeat constructor.
  - intros s a s' [Hl _] Hs Hsens Hstep.
    pose proof (step_cases s a s' Hl Hsens Hstep) as Hcases.
    destruct a as [t|t|h o].
    + destruct Hcases as (p & _ & ->). by apply requested_trace_ok.
    + subst s'. rewrite removed_trace, Forall_app.
      split; [done | apply removal_trace_ok].
    + destruct Hcases as (r & Hr & [[_ ->]|[(_ & _ & ->)|(_ & t & _ & Ho)]]);
        [done | done |].
      destruct o as [body|code msg].
      * destruct Ho as (p & _ & ->). rewrite completed_trace.
        cbn [ended trace]. rewrite !Forall_app.
        split; [done|]. split; [apply removal_trace_ok|].
        constructor; [done | apply store_events_ok].
      * subst s'. rewrite failed_trace. cbn [ended trace].
        rewrite !Forall_app.
        split; [done|]. split; [apply failure_log_ok | apply removal_trace_ok].
Qed.

(** X3. Only a reply that finishes without error changes the store: a
    request, a cancellation, and a reply that finishes with an error
    leave it as it is. *)
Theorem only_a_received_reply_writes_the_store
    (s : State) (a : Action) (s' : State) :
  reachable s → sensible a → perform a s = Ok (tt, s') →
  mSqlDatabase s' ≠ mSqlDatabase s →
  ∃ reply body r tilePos p,
    a = ReplyFinished reply (Received body)
    ∧ replies s !! reply = Some r
    ∧ r_state r = Running
    ∧ r_slot r = Some tilePos
    ∧ provider_of (r_url r) = Some p
    ∧ mSqlDatabase s' = stored (key_of tilePos p) body (mSqlDatabase s).
Proof.
  intros Hreach Hsens Hstep Hne.
  destruct (reachable_invariant s Hreach) as [Hl _].
  pose proof (step_cases s a s' Hl Hsens Hstep) as Hcases.
  destruct a as [t|t|h o].
  - destruct Hcases as (p & _ & ->). exfalso. apply Hne.
    unfold requested. by destruct (isEmpty _).
  - subst s'. exfalso. apply Hne. apply removed_mSqlDatabase.
  - destruct Hcases as (r & Hr & [[_ ->]|[(_ & _ & ->)|(Hst & t & Hsl & Ho)]]);
      [done | done |].
    destruct o as [body|code msg].
    + destruct Ho as (p & Hp & ->).
      exists h, body, r, t, p. repeat (split; [done|]).
      by rewrite completed_mSqlDatabase.
    + subst s'. exfalso. apply Hne. by rewrite failed_mSqlDatabase.
Qed.

End Deliveries.

(** ** One tile and the others *)

Section Tiles.
Context `{Collaborators}.

Lemma entry_handle_bound s tilePos reply :
  entries_live s → mRequest s !! tilePos = Some reply →
  (reply < length (replies s))%nat.
Proof.
  intros Hl Hm. destruct (Hl _ _ Hm) as (r & Hr & _). by eapply lookup_lt_Some.
Qed.

(** Removing the entry of another tile, after any update of a reply the
    entry of [b] does not point to. *)
Lemma removed_other_entry tilePos b hb reply r' s d evs :
  entries_live s → tilePos ≠ b → reply ≠ hb →
  mRequest s !! b = Some hb →
  let s1 := removed tilePos
              (mkState (mRequest s) d (<[reply := r']> (replies s)) evs) in
  mRequest s1 !! b = Some hb ∧ replies s1 !! hb = replies s !! hb.
Proof.
  intros Hl Hne Hh Hb s1. unfold s1. rewrite removed_mRequest. cbn [mRequest].
  split; [by rewrite lookup_delete_ne|].
  rewrite removed_replies_ne; cbn [mRequest replies].
  - by rewrite list_lookup_insert_ne.
  - intros Hm. apply Hne. by eapply entries_live_inj.
Qed.

(** X4. A step that is about one tile leaves the entry of every other
    tile in the table, and the reply that entry points to, as they were:
    neither a request, nor a cancellation, nor the end of a reply, with or
    without error, reaches the fetch of another tile. *)
Theorem other_tiles_are_left_alone
    (s : State) (a : Action) (s' : State) (b : GeoTilePos) (hb : handle) :
  reachable s → sensible a → perform a s = Ok (tt, s') →
  mRequest s !! b = Some hb →
  subject s a ≠ Some b →
  mRequest s' !! b = Some hb ∧ replies s' !! hb = replies s !! hb.
Proof.
  intros Hreach Hsens Hstep Hb Hsubj.
  destruct (reachable_invariant s Hreach) as [Hl _].
  pose proof (entry_handle_bound _ _ _ Hl Hb) as Hlt.
  destruct (Hl _ _ Hb) as (rb & Hrb & Hstb & Hslb).
  pose proof (step_cases s a s' Hl Hsens Hstep) as Hcases.
  destruct a as [t|t|h o]; cbn [subject] in Hsubj.
  - destruct Hcases as (p & _ & ->). unfold requested.
    destruct (isEmpty _); cbn [negb mRequest replies]; [|done].
    rewrite lookup_insert_ne by congruence.
    split; [done|]. by rewrite lookup_app_l.
  - subst s'. rewrite removed_mRequest.
    rewrite lookup_delete_ne by congruence. split; [done|].
    apply removed_replies_ne. intros Hm. apply Hsubj. f_equal.
    by eapply entries_live_inj.
  - destruct Hcases as (r & Hr & Hcases). rewrite Hr in Hsubj.
    cbn [mbind option_bind] in Hsubj.
    assert (h ≠ hb) as Hh by (intros ->; congruence).
    destruct Hcases as [[_ ->]|[(_ & _ & ->)|(_ & t & Hsl & Ho)]]; [done| |].
    + cbn [ended mRequest replies]. by rewrite list_lookup_insert_ne.
    + assert (t ≠ b) as Hne by congruence.
      destruct o as [body|code msg].
      * destruct Ho as (p & _ & ->). unfold completed, ended.
        cbn [mRequest replies mSqlDatabase trace].
        rewrite list_insert_insert_eq.
        by apply removed_other_entry.
      * subst s'. unfold failed, ended. cbn [mRequest replies mSqlDatabase trace].
        by apply removed_other_entry.
Qed.

(** X5. Once a tile has been cancelled, cancelling it again changes
    nothing: no reply is aborted a second time. *)
Theorem second_cancel_does_nothing (s s1 : State) (tilePos : GeoTilePos) :
  reachable s → cancel tilePos s = Ok (tt, s1) →
  cancel tilePos s1 = Ok (tt, s1).
Proof.
  intros Hreach Hc. destruct (reachable_invariant s Hreach) as [Hl _].
  rewrite cancel_eq in Hc by (by apply entries_live_entry_ok).
  injection Hc as <-. unfold cancel, enough. apply removeReply_None.
  rewrite removed_mRequest. apply lookup_delete_eq.
Qed.

Lemma torn_down_not_running r : r_state (torn_down r) ≠ Running.
Proof. unfold torn_down. by destruct (r_state r) eqn:Hst; cbn; rewrite ?Hst. Qed.

(** X6. When a reply finishes while the table holds a newer reply for
    the same tile, it is the newer reply that [removeReply] takes out of
    the table and aborts: it ends up aborted with
    [OperationCanceledError] although its tile was never cancelled.  The
    reply that finished is neither closed nor scheduled for deletion.
    After a finish without error the tile is still delivered, once, from
    the older reply; after a finish with an error nothing is delivered. *)
Theorem older_reply_takes_the_newer_one_down
    (s : State) (tilePos : GeoTilePos) (older newer : handle) (r : Reply)
    (p : string) (o : Outcome) :
  reachable s → sensible (ReplyFinished older o) →
  mRequest s !! tilePos = Some newer →
  replies s !! older = Some r → r_state r = Running →
  r_slot r = Some tilePos → older ≠ newer →
  provider_of (r_url r) = Some p →
  ∃ s' r',
    replyFinished older o s = Ok (tt, s')
    ∧ mRequest s' !! tilePos = None
    ∧ replies s' !! newer = Some r'
    ∧ r_state r' = Aborted
    ∧ r_error r' = OperationCanceledError
    ∧ (∃ ro, replies s' !! older = Some ro
             ∧ r_closed ro = r_closed r
             ∧ r_deleteLater ro = r_deleteLater r)
    ∧ List.filter is_onTile (events_since s s')
      = match o with
        | Received body => [OnTile tilePos (tile_of tilePos body (r_url r))]
        | Failed _ _ => []
        end.
Proof.
  intros Hreach Hsens Hm Hr Hst Hsl Hne Hp.
  destruct (reachable_invariant s Hreach) as [Hl _].
  destruct (Hl _ _ Hm) as (rn & Hrn & Hstn & Hsln).
  assert (Hlo : (older < length (replies s))%nat) by (by eapply lookup_lt_Some).
  assert (Hln : (newer < length (replies s))%nat) by (by eapply lookup_lt_Some).
  assert (Htorn : r_state (torn_down rn) = Aborted
                  ∧ r_error (torn_down rn) = OperationCanceledError).
  { unfold torn_down. rewrite Hstn. done. }
  destruct Htorn as [Hta Hte].
  destruct o as [body|code msg].
  - eexists _, (torn_down rn).
    split; [by eapply replyFinished_received|].
    rewrite completed_mRequest.
    erewrite events_since_app by (rewrite completed_trace; reflexivity).
    unfold completed, ended, removed.
    cbn [mRequest replies mSqlDatabase trace]. rewrite Hm.
    rewrite list_insert_insert_eq.
    rewrite (list_lookup_insert_ne _ older newer) by done. rewrite Hrn.
    cbn [replies].
    split; [apply lookup_delete_eq|].
    split; [apply list_lookup_insert_eq; by rewrite length_insert|].
    split; [done|]. split; [done|]. split.
    + eexists. split.
      * rewrite list_lookup_insert_ne by done.
        apply list_lookup_insert_eq. done.
      * done.
    + rewrite !List.filter_app. cbn [List.filter is_onTile].
      rewrite removal_trace_quiet, store_events_quiet by done. done.
  - assert (code ≠ NoError) as Hcode by (by destruct code).
    eexists _, (torn_down rn).
    split; [by eapply replyFinished_failed|].
    rewrite failed_mRequest.
    erewrite events_since_app by (rewrite failed_trace; reflexivity).
    unfold failed, ended, removed.
    cbn [mRequest replies mSqlDatabase trace]. rewrite Hm.
    rewrite (list_lookup_insert_ne _ older newer) by done. rewrite Hrn.
    cbn [replies].
    split; [apply lookup_delete_eq|].
    split; [apply list_lookup_insert_eq; by rewrite length_insert|].
    split; [done|]. split; [done|]. split.
    + eexists. split.
      * rewrite list_lookup_insert_ne by done.
        apply list_lookup_insert_eq. done.
      * done.
    + rewrite !List.filter_app.
      rewrite removal_trace_quiet by done. unfold failure_log.
      by destruct (bool_decide _).
Qed.

End Tiles.

(** ** The destructor *)

Section Destructor.
Context `{Collaborators}.

Lemma running_untouched_insert s d m evs reply r' :
  running_untouched s → r_state r' ≠ Running →
  running_untouched (mkState m d (<[reply := r']> (replies s)) evs).
Proof.
  intros Hs Hr' h r Hr Hst. cbn [replies] in Hr.
  destruct (decide (h = reply)) as [->|Hne].
  - destruct (decide (reply < length (replies s))%nat) as [Hlt|Hge].
    + rewrite list_lookup_insert_eq in Hr by done. congruence.
    + rewrite list_insert_ge in Hr by lia. by eapply Hs.
  - rewrite list_lookup_insert_ne in Hr by done. by eapply Hs.
Qed.

Lemma running_untouched_removed tilePos s :
  running_untouched s → running_untouched (removed tilePos s).
Proof.
  intros Hs. unfold removed.
  destruct (mRequest s !! tilePos) as [h|]; [|done].
  destruct (replies s !! h) as [r|] eqn:Hr.
  - apply running_untouched_insert; [done | apply torn_down_not_running].
  - intros h' r' Hr'. cbn [replies] in Hr'. by eapply Hs.
Qed.

Lemma reachable_running_untouched s : reachable s → running_untouched s.
Proof.
  revert s. apply reachable_keeps.
  - intros f h r Hr. by destruct f.
  - intros s a s' [Hl _] Hs Hsens Hstep.
    pose proof (step_cases s a s' Hl Hsens Hstep) as Hcases.
    destruct a as [t|t|h o].
    + destruct Hcases as (p & _ & ->). unfold requested.
      destruct (isEmpty _); cbn [negb]; [|exact Hs].
      intros h r Hr Hst. cbn [replies] in Hr.
      apply lookup_app_Some in Hr as [Hr|[_ Hr]]; [by eapply Hs|].
      apply list_lookup_singleton_Some in Hr as [_ <-]. done.
    + subst s'. by apply running_untouched_removed.
    + destruct Hcases as (r & Hr & [[_ ->]|[(_ & _ & ->)|(_ & t & _ & Ho)]]);
        [done | |].
      * unfold ended. apply running_untouched_insert; [done|]. by destruct o.
      * destruct o as [body|code msg].
        -- destruct Ho as (p & _ & ->). unfold completed, ended.
           cbn [mRequest mSqlDatabase replies trace].
           rewrite list_insert_insert_eq.
           intros h' r' Hr'. cbn [replies] in Hr'. revert h' r' Hr'.
           apply running_untouched_removed.
           by apply running_untouched_insert.
        -- subst s'. unfold failed, ended.
           cbn [mRequest mSqlDatabase replies trace].
           apply running_untouched_removed.
           by apply running_untouched_insert.
Qed.

(** X7. In every reachable state the destructor deletes each reply of
    the table exactly once: the pointers it deletes are pairwise
    different, as many as the table has entries, and each is a running
    reply that has been neither closed nor scheduled for deletion by
    [deleteLater].  A reply that is in no entry is not deleted. *)
Theorem destructor_deletes_each_entry_once (s : State) :
  reachable s →
  NoDup (destructor s)
  ∧ length (destructor s) = size (mRequest s)
  ∧ ∀ reply,
      reply ∈ destructor s
      ↔ ∃ tilePos r,
          mRequest s !! tilePos = Some reply
          ∧ replies s !! reply = Some r
          ∧ r_state r = Running
          ∧ r_closed r = false
          ∧ r_deleteLater r = false.
Proof.
  intros Hreach. destruct (reachable_invariant s Hreach) as [Hl _].
  pose proof (reachable_running_untouched s Hreach) as Hu.
  unfold destructor. split; [|split].
  - apply NoDup_fmap_2_strong; [|apply NoDup_map_to_list].
    intros [t1 h1] [t2 h2] H1 H2 Heq. cbn in Heq. subst h2.
    apply elem_of_map_to_list in H1, H2.
    f_equal. by eapply entries_live_inj.
  - by rewrite length_fmap, length_map_to_list.
  - intros reply. rewrite list_elem_of_fmap. split.
    + intros ([t h] & -> & Hin). apply elem_of_map_to_list in Hin.
      cbn [snd]. destruct (Hl _ _ Hin) as (r & Hr & Hst & _).
      destruct (Hu _ _ Hr Hst) as [Hc Hd]. by exists t, r.
    + intros (t & r & Hm & _). exists (t, reply). split; [done|].
      by apply elem_of_map_to_list.
Qed.

End Destructor.

(** ** The store over a run *)

Section Store.
Context `{Collaborators}.

Lemma elem_of_fmap_filter {A B} (f : A → B) (q : A → bool) (l : list A) y :
  y ∈ f <$> List.filter q l → ∃ a, y = f a ∧ a ∈ l ∧ q a = true.
Proof.
  induction l as [|a l IH]; cbn [List.filter]; [by intros ?%elem_of_nil|].
  destruct (q a) eqn:Hq.
  - rewrite fmap_cons, elem_of_cons. intros [->|Hin].
    + exists a. split; [done|]. split; [apply elem_of_cons; by left | done].
    + destruct (IH Hin) as (a' & -> & Ha' & Hq'). exists a'.
      split; [done|]. split; [apply elem_of_cons; by right | done].
  - intros Hin. destruct (IH Hin) as (a' & -> & Ha' & Hq'). exists a'.
    split; [done|]. split; [apply elem_of_cons; by right | done].
Qed.

Lemma NoDup_fmap_filter {A B} (f : A → B) (q : A → bool) (l : list A) :
  NoDup (f <$> l) → NoDup (f <$> List.filter q l).
Proof.
  induction l as [|a l IH]; cbn [List.filter]; [done|].
  rewrite fmap_cons, NoDup_cons. intros [Hnin Hnd].
  destruct (q a); [|by apply IH].
  rewrite fmap_cons, NoDup_cons. split; [|by apply IH].
  intros Hin. apply Hnin.
  destruct (elem_of_fmap_filter _ _ _ _ Hin) as (a' & -> & Ha' & _).
  by apply list_elem_of_fmap_2.
Qed.

Lemma rowid_le_max_id (l : list Row) r : r ∈ l → rowid r ≤ max_id l.
Proof.
  induction l as [|a l IH]; [by intros ?%elem_of_nil|].
  cbn [max_id fold_right]. rewrite elem_of_cons. intros [->|Hin]; [lia|].
  specialize (IH Hin). unfold max_id in IH. lia.
Qed.

Lemma inserted_ok k data t : table_ok t → table_ok (inserted k data t).
Proof.
  intros [Hkeys Hids]. unfold table_ok, inserted. cbn [rows].
  rewrite !fmap_app. cbn [fmap list_fmap]. split.
  - apply NoDup_app. split; [by apply NoDup_fmap_filter|].
    split; [|apply NoDup_singleton].
    intros y Hin Hy. apply list_elem_of_singleton in Hy. subst y.
    destruct (elem_of_fmap_filter _ _ _ _ Hin) as (a & Ha & _ & Hq).
    apply negb_true_iff, bool_decide_eq_false in Hq. apply Hq.
    rewrite <- Ha. unfold key_of_row. by destruct k.
  - apply NoDup_app. split; [by apply NoDup_fmap_filter|].
    split; [|apply NoDup_singleton].
    intros y Hin Hy. apply list_elem_of_singleton in Hy. subst y.
    destruct (elem_of_fmap_filter _ _ _ _ Hin) as (a & Ha & Hina & _).
    apply rowid_le_max_id in Hina. cbn [rowid] in Ha.
    unfold last_rowid in Ha. lia.
Qed.

Lemma stored_ok k image d : database_ok d → database_ok (stored k image d).
Proof.
  intros Hd. unfold stored.
  destruct (attempt k image d) as [why|t'] eqn:Hatt; [done|].
  apply attempt_inr in Hatt as (t & -> & _ & _ & ->). by apply inserted_ok.
Qed.

Lemma one_row_per_key k (l : list Row) :
  NoDup (key_of_row <$> l) → (length (List.filter (has_key k) l) ≤ 1)%nat.
Proof.
  induction l as [|r l IH]; cbn [List.filter]; [cbn; lia|].
  rewrite fmap_cons, NoDup_cons. intros [Hnin Hnd].
  destruct (has_key k r) eqn:Hk; [|by apply IH].
  apply bool_decide_eq_true in Hk.
  assert (List.filter (has_key k) l = []) as ->; [|cbn; lia].
  destruct (List.filter (has_key k) l) as [|r' l'] eqn:Hf; [done|].
  exfalso. apply Hnin.
  assert (r' ∈ List.filter (has_key k) l) as Hin
    by (rewrite Hf; apply elem_of_cons; by left).
  apply list_elem_of_In, List.filter_In in Hin as [Hin Hk'].
  apply bool_decide_eq_true in Hk'. rewrite Hk, <- Hk'.
  apply list_elem_of_fmap_2. by apply list_elem_of_In.
Qed.

Lemma step_database s a s' :
  entries_live s → sensible a → perform a s = Ok (tt, s') →
  mSqlDatabase s' = mSqlDatabase s
  ∨ ∃ k image, mSqlDatabase s' = stored k image (mSqlDatabase s).
Proof.
  intros Hl Hsens Hstep.
  pose proof (step_cases s a s' Hl Hsens Hstep) as Hcases.
  destruct a as [t|t|h o].
  - destruct Hcases as (p & _ & ->). left. unfold requested.
    by destruct (isEmpty _).
  - subst s'. left. apply removed_mSqlDatabase.
  - destruct Hcases as (r & Hr & [[_ ->]|[(_ & _ & ->)|(_ & t & _ & Ho)]]);
      [by left | by left |].
    destruct o as [body|code msg].
    + destruct Ho as (p & _ & ->). right. eexists _, _.
      by rewrite completed_mSqlDatabase.
    + subst s'. left. by rewrite failed_mSqlDatabase.
Qed.

(** X8. Starting from a file whose table obeys the constraints of the
    schema (or from no table), the table obeys them after every run of the
    layer: no two rows agree on zoom, x, y and provider, no two rows share
    a rowid, and so a lookup never has two rows to choose from. *)
Theorem table_keeps_its_constraints
    (f : DbFile) (acts : list Action) (s : State) (t : Tiles) :
  file_ok f → Forall sensible acts →
  run acts (QGVLayerTilesOnline f) = Ok (tt, s) →
  mSqlDatabase s = HasTiles t →
  table_ok t
  ∧ ∀ k, (length (List.filter (has_key k) (rows t)) ≤ 1)%nat.
Proof.
  intros Hf Hacts Hrun Hdb.
  assert (Hok : database_ok (mSqlDatabase s)).
  { apply (run_keeps (λ s, database_ok (mSqlDatabase s)))
      with (acts := acts) (s := QGVLayerTilesOnline f);
      [|apply invariant_new| |done|done].
    - intros s0 a s1 [Hl _] Hs0 Hsens Hstep.
      destruct (step_database s0 a s1 Hl Hsens Hstep) as [->|(k & image & ->)];
        [done|].
      by apply stored_ok.
    - destruct f as [e|e [t0|]|[t0|]]; cbn; try done.
      split; apply NoDup_nil_2. }
  rewrite Hdb in Hok. split; [exact Hok|].
  intros k. apply one_row_per_key. apply Hok.
Qed.

(** The layer never opens the database or creates the table after its
    constructor: what was unusable then is unusable after every run. *)
Lemma unusable_after_run (f : DbFile) (e : string) acts s :
  f = OpenFails e ∨ f = CreateFails e None →
  Forall sensible acts →
  run acts (QGVLayerTilesOnline f) = Ok (tt, s) →
  mSqlDatabase s = NoTiles e.
Proof.
  intros Hf Hacts Hrun.
  apply (run_keeps (λ s, mSqlDatabase s = NoTiles e))
    with (acts := acts) (s := QGVLayerTilesOnline f);
    [|apply invariant_new| |done|done].
  - intros s0 a s1 [Hl _] Hs0 Hsens Hstep.
    destruct (step_database s0 a s1 Hl Hsens Hstep) as [->|(k & image & ->)];
      [done|]. by rewrite Hs0.
  - by destruct Hf as [->| ->].
Qed.

(** X9. When the database did not open, or the table was not there and
    could not be created, the layer works without a store after every
    run: each lookup statement fails, so nothing is delivered from the
    store and each request goes to the network; each insert fails, the
    error text of the failed insert is logged, and the store is as it
    was. *)
Theorem store_that_failed_stays_out
    (f : DbFile) (e : string) (acts : list Action) (s : State) :
  f = OpenFails e ∨ f = CreateFails e None →
  Forall sensible acts →
  run acts (QGVLayerTilesOnline f) = Ok (tt, s) →
  (∀ tilePos p,
     getNetworkManager = true →
     provider_of (tilePosToUrl tilePos) = Some p →
     ∃ s', request tilePos s = Ok (tt, s')
           ∧ mRequest s' !! tilePos = Some (length (replies s))
           ∧ List.filter is_sql (events_since s s')
             = [SqlExec (SelectTileData (key_of tilePos p)) false]
           ∧ List.filter is_get (events_since s s')
             = [NetGet (QUrl_toString (tilePosToUrl tilePos))
                  (length (replies s))]
           ∧ List.filter is_onTile (events_since s s') = [])
  ∧ (∀ image tilePos url p,
       provider_of url = Some p →
       ∃ s', cacheTile image tilePos url s = Ok (tt, s')
             ∧ mSqlDatabase s' = mSqlDatabase s
             ∧ events_since s s'
               = [SqlExec (InsertOrReplace (key_of tilePos p) image) false;
                  LogCritical (lastErrorText (Unusable e));
                  LogDebug "sql query" insertSql]).
Proof.
  intros Hf Hacts Hrun.
  pose proof (unusable_after_run f e acts s Hf Hacts Hrun) as Hdb.
  split.
  - intros tilePos p Hnm Hp.
    assert (Hc : cached (key_of tilePos p) (mSqlDatabase s) = [])
      by (by rewrite Hdb).
    eexists. split; [by apply (request_eq _ p)|].
    rewrite (requested_miss _ _ _ Hc). cbn [mRequest].
    erewrite events_since_app by reflexivity.
    split; [apply lookup_insert_eq|].
    rewrite !List.filter_app, Hdb. done.
  - intros image tilePos url p Hp.
    eexists. split; [by apply (cacheTile_eq _ _ _ p)|]. cbn [mSqlDatabase].
    erewrite events_since_app by reflexivity.
    unfold stored, store_events. by rewrite Hdb.
Qed.

(** X10. A store under the key of one tile and provider leaves what a
    lookup finds under every other key as it was. *)
Theorem store_leaves_other_keys_alone
    (s : State) (image : QByteArray) (tilePos tilePos' : GeoTilePos)
    (url url' p p' : string) :
  provider_of url = Some p → provider_of url' = Some p' →
  key_of tilePos p ≠ key_of tilePos' p' →
  ∃ s1 found s2 s3,
    cacheTile image tilePos url s = Ok (tt, s1)
    ∧ findCachedTile tilePos' url' s = Ok (found, s2)
    ∧ findCachedTile tilePos' url' s1 = Ok (found, s3).
Proof.
  intros Hp Hp' Hne. eexists _, _, _, _.
  split; [by apply (cacheTile_eq _ _ _ p)|].
  split; [by apply (findCachedTile_eq _ _ p')|].
  rewrite (findCachedTile_eq _ _ p') by done. cbn [mSqlDatabase].
  by rewrite cached_stored_other.
Qed.


End Store.

(** ** Returning *)

Section Returning.
Context `{Collaborators}.

(** X12. In a reachable state [cancel] always returns, and so does the
    end of a reply with an error.  The end of a reply without error
    returns unless the reply is running and connected and the URL it
    reports has fewer than two slashes, in which case [cacheTile] faults
    at the indexing. *)
Theorem completion_and_cancel_return (s : State) :
  reachable s →
  (∀ tilePos, ∃ s', cancel tilePos s = Ok (tt, s'))
  ∧ (∀ reply r code msg,
       replies s !! reply = Some r → code ≠ NoError →
       ∃ s', replyFinished reply (Failed code msg) s = Ok (tt, s'))
  ∧ (∀ reply r body,
       replies s !! reply = Some r →
       (replyFinished reply (Received body) s = Crash
        ↔ r_state r = Running ∧ is_Some (r_slot r)
          ∧ (occurrences "/" (r_url r) < 2)%nat)
       ∧ (replyFinished reply (Received body) s ≠ Crash →
          ∃ s', replyFinished reply (Received body) s = Ok (tt, s'))).
Proof.
  intros Hreach. destruct (reachable_invariant s Hreach) as [Hl _].
  split; [|split].
  - intros tilePos. eexists. apply cancel_eq. by apply entries_live_entry_ok.
  - intros reply r code msg Hr Hcode.
    destruct (decide (r_state r = Running)) as [Hst|Hst];
      [|rewrite (replyFinished_done _ _ r) by done; eauto].
    destruct (r_slot r) as [t|] eqn:Hsl.
    + rewrite (replyFinished_failed _ r t) by done. eauto.
    + rewrite (replyFinished_unconnected _ _ r) by done. eauto.
  - intros reply r body Hr. rewrite <- provider_of_None.
    destruct (decide (r_state r = Running)) as [Hst|Hst].
    2:{ rewrite (replyFinished_done _ _ r) by done.
        split; [split; [done | by intros [? _]] | eauto]. }
    destruct (r_slot r) as [t|] eqn:Hsl.
    2:{ rewrite (replyFinished_unconnected _ _ r) by done.
        split; [split; [done | by intros (_ & [? ?] & _)] | eauto]. }
    destruct (provider_of (r_url r)) as [p|] eqn:Hp.
    + rewrite (replyFinished_received _ r t p) by done.
      split; [split; [done | by intros (_ & _ & ?)] | eauto].
    + rewrite (replyFinished_Running _ _ r t) by done.
      rewrite (onReplyFinished_success _ _ _ _
                 (ended_lookup reply (Received body) r s Hr) eq_refl
                 (entry_ok_ended _ _ _ _ _ Hl Hr)).
      cbn [finish set_state set_error set_data r_url]. rewrite Hp.
      split; [split; [eauto | done] | done].
Qed.

End Returning.

(** ** The coordinator on the example server *)

Section Examples.
#[local] Existing Instance example.

(** [QString::split] on the URL of the example. *)
Example split_url :
  split "/" "http://tile.example.com/3/1/2.png"
  = ["http:"; ""; "tile.example.com"; "3"; "1"; "2.png"].
Proof. vm_compute. reflexivity. Qed.

Example split_empty : split "/" "" = [""].
Proof. reflexivity. Qed.

Example no_provider : provider_of "tile.example.com/3" = None.
Proof. vm_compute. reflexivity. Qed.

(** Two requests for one tile, then the first reply arrives: the tile is
    delivered once and stored, the table is empty, the second reply has
    been aborted in the first one's place, and the first reply is never
    closed or scheduled for deletion. *)
Example overlapping_requests :
  let s := state_after (Opens None)
             [Request tile312; Request tile312;
              ReplyFinished 0%nat (Received png)] in
  mRequest s = ∅
  ∧ List.filter is_onTile (trace s)
    = [OnTile tile312
         (tile_of tile312 png "http://tile.example.com/3/1/2.png")]
  ∧ cached (key_of tile312 "tile.example.com") (mSqlDatabase s) = png
  ∧ (r_state <$> replies s !! 1%nat) = Some Aborted
  ∧ (r_error <$> replies s !! 1%nat) = Some OperationCanceledError
  ∧ (r_deleteLater <$> replies s !! 0%nat) = Some false.
Proof. vm_compute. repeat split; reflexivity. Qed.

(** A request, its cancellation, and the same request again. *)
Example cancel_then_request :
  let s := state_after (Opens None)
             [Request tile312; Cancel tile312; Request tile312] in
  mRequest s !! tile312 = Some 1%nat
  ∧ (r_state <$> replies s !! 0%nat) = Some Aborted
  ∧ List.filter is_onTile (trace s) = [].
Proof. vm_compute. repeat split; reflexivity. Qed.

(** The events of a successful completion, in order. *)
Example completion_events :
  events_since fetching312
    (state_after (Opens None)
       [Request tile312; ReplyFinished 0%nat (Received png)])
  = [TableRemove tile312; ReplyAbort 0; ReplyClose 0; ReplyDeleteLater 0;
     OnTile tile312 (tile_of tile312 png "http://tile.example.com/3/1/2.png");
     SqlExec (InsertOrReplace (key_of tile312 "tile.example.com") png) true;
     LogDebug "sql query" insertSql].
Proof. vm_compute. reflexivity. Qed.

(** A reply without bytes: the tile is delivered, the insert is refused
    by [NOT NULL] and logged, nothing is stored, and the next request for
    the tile fetches again. *)
Example reply_without_bytes_is_not_stored :
  let s := state_after (Opens None)
             [Request tile312; ReplyFinished 0%nat (Received []);
              Request tile312] in
  mSqlDatabase s = HasTiles (mkTiles [] 0)
  ∧ List.filter is_cache_write (trace s)
    = [SqlExec (InsertOrReplace (key_of tile312 "tile.example.com") []) false]
  ∧ In (LogCritical (lastErrorText NotNull)) (trace s)
  ∧ length (List.filter is_onTile (trace s)) = 1%nat
  ∧ length (List.filter is_get (trace s)) = 2%nat
  ∧ mRequest s !! tile312 = Some 1%nat.
Proof.
  vm_compute. repeat split; try reflexivity.
  repeat (first [left; reflexivity | right]).
Qed.

(** A table whose rowids are used up: the tile is delivered, the insert
    fails and is logged, and the table is as it was. *)
Example no_rowid_left :
  let full := mkTiles [mkRow max_rowid 3 1 3 "tile.example.com" png]
                max_rowid in
  let s := state_after (Opens (Some full))
             [Request tile312; ReplyFinished 0%nat (Received png)] in
  mSqlDatabase s = HasTiles full
  ∧ List.filter is_cache_write (trace s)
    = [SqlExec (InsertOrReplace (key_of tile312 "tile.example.com") png)
         false]
  ∧ In (LogCritical (lastErrorText Full)) (trace s)
  ∧ length (List.filter is_onTile (trace s)) = 1%nat
  ∧ cached (key_of tile312 "tile.example.com") (mSqlDatabase s) = [].
Proof.
  vm_compute. repeat split; try reflexivity.
  repeat (first [left; reflexivity | right]).
Qed.

Lemma reachable_fetching312 : reachable fetching312.
Proof. apply reachable_state_after. repeat constructor. Defined.

Lemma fetching312_entry : mRequest fetching312 !! tile312 = Some 0%nat.
Proof. vm_compute. reflexivity. Defined.

Lemma fetching312_reply : replies fetching312 !! 0%nat = Some reply312.
Proof. vm_compute. reflexivity. Defined.


Lemma second_request_overwrites_entry_witness :
  reachable fetching312
  ∧ mRequest fetching312 !! tile312 = Some 0%nat
  ∧ ∃ s', request tile312 fetching312 = Ok (tt, s')
          ∧ mRequest s' !! tile312 = Some 1%nat
          ∧ fetching s' tile312 0%nat.
Proof.
  split; [exact reachable_fetching312|]. split; [exact fetching312_entry|].
  destruct (second_request_overwrites_entry (H := example) fetching312
              tile312 0%nat reachable_fetching312 fetching312_entry)
    as (_ & s' & Hreq & _ & Hm & _ & _ & _ & Hold & _).
  exists s'. split; [exact Hreq|]. split; [|exact Hold].
  rewrite Hm. vm_compute. reflexivity.
Defined.

Lemma in_flight_table_invariant_witness :
  reachable fetching312 ∧ fetching fetching312 tile312 0%nat.
Proof.
  split; [exact reachable_fetching312|].
  exact (proj1 (in_flight_table_invariant (H := example) fetching312
                  reachable_fetching312)
           tile312 0%nat fetching312_entry).
Defined.

Lemma one_delivery_on_success_none_on_failure_witness :
  getNetworkManager = true
  ∧ cache_miss new_layer tile312
  ∧ provider_of (QUrl_toString (tilePosToUrl tile312)) = Some "tile.example.com"
  ∧ ∃ s1, request tile312 new_layer = Ok (tt, s1)
          ∧ mRequest s1 !! tile312 = Some 0%nat.
Proof.
  assert (Hmiss : cache_miss new_layer tile312)
    by (exists "tile.example.com"; split; vm_compute; reflexivity).
  split; [reflexivity|]. split; [exact Hmiss|].
  split; [vm_compute; reflexivity|].
  destruct (one_delivery_on_success_none_on_failure (H := example) new_layer
              tile312 "tile.example.com" eq_refl Hmiss eq_refl)
    as (s1 & Hreq & Hm & _).
  exists s1. split; [exact Hreq | exact Hm].
Defined.

(** The example of the specification: the store holds tile (3,1,2) of
    [tile.example.com]. *)
Lemma cache_hit_delivers_without_fetch_witness :
  ∃ s' tile,
    request tile312 (QGVLayerTilesOnline populated) = Ok (tt, s')
    ∧ List.filter is_onTile (events_since (QGVLayerTilesOnline populated) s')
      = [OnTile tile312 tile]
    ∧ image tile = png
    ∧ geometry tile = tile312
    ∧ existsb is_get (events_since (QGVLayerTilesOnline populated) s') = false
    ∧ replies s' = []
    ∧ mRequest s' = ∅
    ∧ mSqlDatabase s' = mSqlDatabase (QGVLayerTilesOnline populated).
Proof.
  assert (E : provider_of (tilePosToUrl tile312) = Some "tile.example.com")
    by (vm_compute; reflexivity).
  assert (E' : select_tile_data (key_of tile312 "tile.example.com")
                 (mkTiles [mkRow 1 3 1 2 "tile.example.com" png] 1) = Some png)
    by (vm_compute; reflexivity).
  exact (cache_hit_delivers_without_fetch (H := example)
           (QGVLayerTilesOnline populated) tile312 "tile.example.com"
           (mkTiles [mkRow 1 3 1 2 "tile.example.com" png] 1) png
           eq_refl E eq_refl E' ltac:(discriminate)).
Defined.


Lemma failed_completion_removes_without_delivery_witness :
  reachable fetching312
  ∧ replies fetching312 !! 0%nat = Some reply312
  ∧ r_state reply312 = Running
  ∧ r_slot reply312 = Some tile312
  ∧ OtherError 203 ≠ NoError
  ∧ ∃ s', replyFinished 0%nat (Failed (OtherError 203) "Not Found") fetching312
          = Ok (tt, s')
          ∧ mRequest s' !! tile312 = None
          ∧ List.filter is_log (events_since fetching312 s')
            = [LogCritical "Not Found"].
Proof.
  split; [exact reachable_fetching312|]. split; [exact fetching312_reply|].
  repeat (split; [reflexivity|]). split; [discriminate|].
  destruct (failed_completion_removes_without_delivery (H := example)
              fetching312 0%nat reply312 tile312 (OtherError 203) "Not Found"
              reachable_fetching312 fetching312_reply eq_refl eq_refl
              ltac:(discriminate))
    as (s' & Hfin & Hm & _ & _ & _ & _ & Hlog).
  exists s'. split; [exact Hfin|]. split; [exact Hm | exact Hlog].
Defined.

Lemma cancel_aborts_or_does_nothing_witness :
  reachable fetching312
  ∧ (∃ s' r', cancel tile312 fetching312 = Ok (tt, s')
              ∧ mRequest s' = delete tile312 (mRequest fetching312)
              ∧ replies s' !! 0%nat = Some r'
              ∧ r_state r' = Aborted)
  ∧ cancel (mkGeoTilePos 3 1 3) fetching312 = Ok (tt, fetching312).
Proof.
  split; [exact reachable_fetching312|]. split.
  - pose proof (cancel_aborts_or_does_nothing (H := example) fetching312
                  tile312 reachable_fetching312) as W.
    rewrite fetching312_entry in W.
    destruct W as (s' & r' & Hc & Hm & _ & Hr & Hst & _).
    exists s', r'. repeat split; assumption.
  - pose proof (cancel_aborts_or_does_nothing (H := example) fetching312
                  (mkGeoTilePos 3 1 3) reachable_fetching312) as W.
    assert (E : mRequest fetching312 !! mkGeoTilePos 3 1 3 = None)
      by (vm_compute; reflexivity).
    rewrite E in W. exact W.
Defined.




Lemma empty_cache_entry_is_a_miss_witness :
  getNetworkManager = true
  ∧ provider_of (tilePosToUrl tile312) = Some "tile.example.com"
  ∧ select_tile_data (key_of tile312 "tile.example.com")
      (mkTiles [mkRow 1 3 1 2 "tile.example.com" []] 1) = Some []
  ∧ ∃ s', request tile312 (QGVLayerTilesOnline hollow) = Ok (tt, s')
          ∧ mRequest s' !! tile312 = Some 0%nat.
Proof.
  assert (E : provider_of (tilePosToUrl tile312) = Some "tile.example.com")
    by (vm_compute; reflexivity).
  assert (E' : select_tile_data (key_of tile312 "tile.example.com")
                 (mkTiles [mkRow 1 3 1 2 "tile.example.com" []] 1) = Some [])
    by (vm_compute; reflexivity).
  split; [reflexivity|]. split; [exact E|]. split; [exact E'|].
  destruct (empty_cache_entry_is_a_miss (H := example)
              (QGVLayerTilesOnline hollow) tile312 "tile.example.com"
              (mkTiles [mkRow 1 3 1 2 "tile.example.com" []] 1)
              ltac:(reflexivity) E ltac:(reflexivity) E')
    as (_ & (s' & Hreq & Hm & _) & _).
  exists s'. split; [exact Hreq | exact Hm].
Defined.

End Examples.

(** ** The rest of the class on the example server *)

Section MoreExamples.
#[local] Existing Instance example.

Lemma reachable_fetching_both : reachable fetching_both.
Proof. apply reachable_state_after. repeat constructor. Defined.

Lemma reachable_fetching_twice : reachable fetching_twice.
Proof. apply reachable_state_after. repeat constructor. Defined.

Lemma reachable_served312 : reachable served312.
Proof. apply reachable_state_after. repeat constructor. Defined.

(** With a host in capitals the tile is stored under the lower-case host
    and looked up under the other: the second request fetches again. *)
Example capitals_never_hit :
  let s := @state_after capitals (Opens None)
             [Request tile312; ReplyFinished 0%nat (Received png);
              Request tile312] in
  length (replies s) = 2%nat
  ∧ cached (key_of tile312 "tile.example.com") (mSqlDatabase s) = png
  ∧ cached (key_of tile312 "Tile.Example.com") (mSqlDatabase s) = []
  ∧ length (List.filter is_onTile (trace s)) = 1%nat.
Proof. vm_compute. repeat split; reflexivity. Qed.

(** Without assertions and without a manager, the populated store still
    serves its tile; the tile next to it is a fault. *)
Lemma faults_on_urls_without_two_slashes_witness :
  QT_NO_DEBUG (Collaborators := unmanaged) = true
  ∧ getNetworkManager (Collaborators := unmanaged) = false
  ∧ provider_of (tilePosToUrl (Collaborators := unmanaged) tile312)
    = Some "tile.example.com"
  ∧ cached (key_of tile312 "tile.example.com")
      (mSqlDatabase (@QGVLayerTilesOnline unmanaged populated)) ≠ []
  ∧ (∃ s', @request unmanaged tile312 (@QGVLayerTilesOnline unmanaged populated)
           = Ok (tt, s')
           ∧ mRequest s' = ∅)
  ∧ @request unmanaged tile313 (@QGVLayerTilesOnline unmanaged populated)
    = Crash.
Proof.
  assert (E : provider_of (tilePosToUrl (Collaborators := unmanaged) tile312)
              = Some "tile.example.com") by (vm_compute; reflexivity).
  assert (Hne : cached (key_of tile312 "tile.example.com")
                  (mSqlDatabase (@QGVLayerTilesOnline unmanaged populated))
                ≠ []) by (vm_compute; discriminate).
  split; [reflexivity|]. split; [reflexivity|]. split; [exact E|].
  split; [exact Hne|]. split.
  - destruct (proj2 (proj2 (proj2
                (faults_on_urls_without_two_slashes (H := unmanaged) tile312
                   "" [] (@QGVLayerTilesOnline unmanaged populated))))
                eq_refl eq_refl "tile.example.com" E Hne)
      as (s' & Hreq & Hm & _).
    exists s'. split; [exact Hreq | exact Hm].
  - apply (proj1 (proj2 (proj2
             (faults_on_urls_without_two_slashes (H := unmanaged) tile313
                "" [] (@QGVLayerTilesOnline unmanaged populated))))).
    right. split; [reflexivity|]. right.
    exists "tile.example.com". split; vm_compute; reflexivity.
Defined.

Lemma every_delivery_has_its_rectangle_witness :
  reachable served312
  ∧ Forall delivery_ok (trace served312)
  ∧ List.filter is_onTile (trace served312)
    = [OnTile tile312
         (tile_of tile312 png
            "http://tile.example.com/3/1/2.png Cached Tile")].
Proof.
  split; [exact reachable_served312|]. split.
  - exact (every_delivery_has_its_rectangle (H := example) served312
             reachable_served312).
  - vm_compute. reflexivity.
Defined.

Lemma only_a_received_reply_writes_the_store_witness :
  reachable fetching312
  ∧ sensible (ReplyFinished 0%nat (Received png))
  ∧ perform (ReplyFinished 0%nat (Received png)) fetching312
    = Ok (tt, received312)
  ∧ mSqlDatabase received312 ≠ mSqlDatabase fetching312
  ∧ ∃ reply body r tilePos p,
      ReplyFinished 0%nat (Received png) = ReplyFinished reply (Received body)
      ∧ replies fetching312 !! reply = Some r
      ∧ r_state r = Running
      ∧ r_slot r = Some tilePos
      ∧ provider_of (r_url r) = Some p
      ∧ mSqlDatabase received312
        = stored (key_of tilePos p) body (mSqlDatabase fetching312).
Proof.
  assert (Hstep : perform (ReplyFinished 0%nat (Received png)) fetching312
                  = Ok (tt, received312)) by (vm_compute; reflexivity).
  assert (Hne : mSqlDatabase received312 ≠ mSqlDatabase fetching312)
    by (vm_compute; discriminate).
  split; [exact reachable_fetching312|]. split; [exact I|].
  split; [exact Hstep|]. split; [exact Hne|].
  exact (only_a_received_reply_writes_the_store (H := example) fetching312
           (ReplyFinished 0%nat (Received png)) received312
           reachable_fetching312 I Hstep Hne).
Defined.

Lemma other_tiles_are_left_alone_witness :
  reachable fetching_both
  ∧ mRequest fetching_both !! tile313 = Some 1%nat
  ∧ subject fetching_both (Cancel tile312) ≠ Some tile313
  ∧ ∃ s', perform (Cancel tile312) fetching_both = Ok (tt, s')
          ∧ mRequest s' !! tile313 = Some 1%nat
          ∧ replies s' !! 1%nat = replies fetching_both !! 1%nat.
Proof.
  assert (Hb : mRequest fetching_both !! tile313 = Some 1%nat)
    by (vm_compute; reflexivity).
  assert (Hsubj : subject fetching_both (Cancel tile312) ≠ Some tile313)
    by (vm_compute; discriminate).
  set (s' := state_after (Opens None)
               [Request tile312; Request tile313; Cancel tile312]).
  assert (Hstep : perform (Cancel tile312) fetching_both = Ok (tt, s'))
    by (vm_compute; reflexivity).
  split; [exact reachable_fetching_both|]. split; [exact Hb|].
  split; [exact Hsubj|]. exists s'. split; [exact Hstep|].
  exact (other_tiles_are_left_alone (H := example) fetching_both
           (Cancel tile312) s' tile313 1%nat
           reachable_fetching_both I Hstep Hb Hsubj).
Defined.

Lemma second_cancel_does_nothing_witness :
  reachable fetching312
  ∧ cancel tile312 fetching312 = Ok (tt, cancelled312)
  ∧ cancel tile312 cancelled312 = Ok (tt, cancelled312).
Proof.
  assert (Hc : cancel tile312 fetching312 = Ok (tt, cancelled312))
    by (vm_compute; reflexivity).
  split; [exact reachable_fetching312|]. split; [exact Hc|].
  exact (second_cancel_does_nothing (H := example) fetching312 cancelled312
           tile312 reachable_fetching312 Hc).
Defined.

Lemma older_reply_takes_the_newer_one_down_witness :
  reachable fetching_twice
  ∧ mRequest fetching_twice !! tile312 = Some 1%nat
  ∧ replies fetching_twice !! 0%nat = Some reply312
  ∧ ∃ s' r',
      replyFinished 0%nat (Received png) fetching_twice = Ok (tt, s')
      ∧ mRequest s' !! tile312 = None
      ∧ replies s' !! 1%nat = Some r'
      ∧ r_state r' = Aborted.
Proof.
  assert (Hm : mRequest fetching_twice !! tile312 = Some 1%nat)
    by (vm_compute; reflexivity).
  assert (Hr : replies fetching_twice !! 0%nat = Some reply312)
    by (vm_compute; reflexivity).
  split; [exact reachable_fetching_twice|]. split; [exact Hm|].
  split; [exact Hr|].
  destruct (older_reply_takes_the_newer_one_down (H := example) fetching_twice
              tile312 0%nat 1%nat reply312 "tile.example.com" (Received png)
              reachable_fetching_twice I Hm Hr eq_refl eq_refl
              ltac:(discriminate) ltac:(vm_compute; reflexivity))
    as (s' & r' & Hfin & Hnone & Hr' & Hst & _).
  exists s', r'. repeat split; assumption.
Defined.

Lemma destructor_deletes_each_entry_once_witness :
  reachable fetching_both
  ∧ NoDup (destructor fetching_both)
  ∧ length (destructor fetching_both) = 2%nat.
Proof.
  split; [exact reachable_fetching_both|].
  destruct (destructor_deletes_each_entry_once (H := example) fetching_both
              reachable_fetching_both) as (Hnd & Hlen & _).
  split; [exact Hnd|]. rewrite Hlen. vm_compute. reflexivity.
Defined.

Lemma table_keeps_its_constraints_witness :
  file_ok populated
  ∧ Forall sensible [Request tile313; ReplyFinished 0%nat (Received png)]
  ∧ ∃ s t,
      run [Request tile313; ReplyFinished 0%nat (Received png)]
        (QGVLayerTilesOnline populated) = Ok (tt, s)
      ∧ mSqlDatabase s = HasTiles t
      ∧ length (rows t) = 2%nat
      ∧ table_ok t.
Proof.
  assert (Hf : file_ok populated).
  { split; apply NoDup_singleton. }
  assert (Hacts : Forall sensible
                    [Request tile313; ReplyFinished 0%nat (Received png)])
    by (repeat constructor).
  split; [exact Hf|]. split; [exact Hacts|].
  set (s := state_after populated
              [Request tile313; ReplyFinished 0%nat (Received png)]).
  set (t := mkTiles [mkRow 1 3 1 2 "tile.example.com" png;
                     mkRow 2 3 1 3 "tile.example.com" png] 2).
  assert (Hrun : run [Request tile313; ReplyFinished 0%nat (Received png)]
                   (QGVLayerTilesOnline populated) = Ok (tt, s))
    by (vm_compute; reflexivity).
  assert (Hdb : mSqlDatabase s = HasTiles t) by (vm_compute; reflexivity).
  exists s, t. split; [exact Hrun|]. split; [exact Hdb|].
  split; [reflexivity|].
  exact (proj1 (table_keeps_its_constraints (H := example) populated _ s t
                  Hf Hacts Hrun Hdb)).
Defined.

Lemma store_that_failed_stays_out_witness :
  unopened = OpenFails "unable to open database file"
  ∧ Forall sensible [Request tile312; ReplyFinished 0%nat (Received png)]
  ∧ provider_of "http://tile.example.com/3/1/3.png" = Some "tile.example.com"
  ∧ ∃ s s',
      run [Request tile312; ReplyFinished 0%nat (Received png)]
        (QGVLayerTilesOnline unopened) = Ok (tt, s)
      ∧ cacheTile png tile313 "http://tile.example.com/3/1/3.png" s
        = Ok (tt, s')
      ∧ mSqlDatabase s' = mSqlDatabase s
      ∧ events_since s s'
        = [SqlExec (InsertOrReplace (key_of tile313 "tile.example.com") png)
             false;
           LogCritical
             (lastErrorText (Unusable "unable to open database file"));
           LogDebug "sql query" insertSql].
Proof.
  assert (Hacts : Forall sensible
                    [Request tile312; ReplyFinished 0%nat (Received png)])
    by (repeat constructor).
  assert (E : provider_of "http://tile.example.com/3/1/3.png"
              = Some "tile.example.com") by (vm_compute; reflexivity).
  split; [reflexivity|]. split; [exact Hacts|]. split; [exact E|].
  set (s := state_after unopened
              [Request tile312; ReplyFinished 0%nat (Received png)]).
  assert (Hrun : run [Request tile312; ReplyFinished 0%nat (Received png)]
                   (QGVLayerTilesOnline unopened) = Ok (tt, s))
    by (vm_compute; reflexivity).
  destruct (proj2 (store_that_failed_stays_out (H := example) unopened
                     "unable to open database file" _ s
                     (or_introl eq_refl) Hacts Hrun)
              png tile313 "http://tile.example.com/3/1/3.png"
              "tile.example.com" E)
    as (s' & Hstore & Hdb & Hevs).
  exists s, s'. split; [exact Hrun|]. split; [exact Hstore|].
  split; [exact Hdb | exact Hevs].
Defined.

Lemma store_leaves_other_keys_alone_witness :
  provider_of "http://tile.example.com/3/1/3.png" = Some "tile.example.com"
  ∧ provider_of "http://tile.example.com/3/1/2.png" = Some "tile.example.com"
  ∧ key_of tile313 "tile.example.com" ≠ key_of tile312 "tile.example.com"
  ∧ ∃ s1 found s2 s3,
      cacheTile [Byte.x00] tile313 "http://tile.example.com/3/1/3.png"
        (QGVLayerTilesOnline populated) = Ok (tt, s1)
      ∧ findCachedTile tile312 "http://tile.example.com/3/1/2.png"
          (QGVLayerTilesOnline populated) = Ok (found, s2)
      ∧ findCachedTile tile312 "http://tile.example.com/3/1/2.png" s1
        = Ok (found, s3).
Proof.
  assert (E : provider_of "http://tile.example.com/3/1/3.png"
              = Some "tile.example.com") by (vm_compute; reflexivity).
  assert (E' : provider_of "http://tile.example.com/3/1/2.png"
               = Some "tile.example.com") by (vm_compute; reflexivity).
  assert (Hne : key_of tile313 "tile.example.com"
                ≠ key_of tile312 "tile.example.com") by discriminate.
  split; [exact E|]. split; [exact E'|]. split; [exact Hne|].
  exact (store_leaves_other_keys_alone (H := example)
           (QGVLayerTilesOnline populated) [Byte.x00] tile313 tile312
           "http://tile.example.com/3/1/3.png"
           "http://tile.example.com/3/1/2.png"
           "tile.example.com" "tile.example.com" E E' Hne).
Defined.


Lemma completion_and_cancel_return_witness :
  reachable fetching312
  ∧ (∃ s', cancel tile312 fetching312 = Ok (tt, s'))
  ∧ ∃ s', replyFinished 0%nat (Failed (OtherError 203) "Not Found")
            fetching312 = Ok (tt, s').
Proof.
  split; [exact reachable_fetching312|].
  destruct (completion_and_cancel_return (H := example) fetching312
              reachable_fetching312) as (Hc & Hf & _).
  split; [exact (Hc tile312)|].
  exact (Hf 0%nat reply312 (OtherError 203) "Not Found" fetching312_reply
           ltac:(discriminate)).
Defined.

End MoreExamples.
